(** * fix_ids.py: the route-file rewriter

    A shallow embedding of [src/fix_ids.py].  The script rewrites two code
    idioms in every [src/routes/*.ts] file with two [re.sub] calls and writes
    a file back only when its text changed.

    - Python [str] values are lists of Unicode code points ([N]).
    - [re.sub] is modelled by a small backtracking matcher for the fragment of
      the regular-expression syntax that the two patterns use (literals,
      escaped literals, [\w], the greedy [+] and one capture group).  The
      word characters outside ASCII are a parameter [unicode_word].
    - Exceptions are values of [exn]; a computation of the script threads a
      [world]: the file system as a finite map from paths to entries, the
      paths written and the lines printed.

    The development first shows that the matcher on the two compiled patterns
    finds what the two rules of the specification describe, then that no
    fragment starts inside or across the texts the rules handle, and derives
    the properties of [fix_id_parsing] and of the loop from that. *)

From Stdlib Require Import NArith Ascii String List Lia Bool.
From stdpp Require Import gmap strings list.

Local Open Scope list_scope.

(** ** Strings *)

Definition char := N.
Definition str := list char.

Definition chr (a : ascii) : char := N_of_ascii a.

(** A Python string literal whose characters are all ASCII. *)
Definition lit (s : string) : str := map chr (list_ascii_of_string s).

Definition NL : string := String "010"%char EmptyString.

(** ** Exceptions *)

Inductive exn :=
| re_error          (* the pattern or the template is not accepted *)
| IndexError        (* [match.group(n)]: no such group *)
| OSError.          (* a file cannot be opened *)

Definition exc (A : Type) : Type := exn + A.
Definition raise {A} (e : exn) : exc A := inl e.
Definition ret {A} (a : A) : exc A := inr a.
Definition bind {A B} (m : exc A) (k : A -> exc B) : exc B :=
  match m with
  | inl e => inl e
  | inr a => k a
  end.

Declare Scope exc_scope.
Delimit Scope exc_scope with exc.
Notation "x <- m ;; k" := (bind m (fun x => k))
  (at level 62, m at next level, right associativity) : exc_scope.
Local Open Scope exc_scope.

(** ** Regular expressions: the fragment used by the script *)

Inductive atom :=
| Chr (c : char)     (* a literal character, escaped or not *)
| Word.              (* [\w] *)

Inductive node :=
| One (a : atom)
| Many1 (a : atom)   (* [a+], greedy *)
| Open               (* [(] *)
| Close.             (* [)] *)

Definition pattern := list node.

Inductive token := TAtom (a : atom) | TPlus | TOpen | TClose.

Definition is_meta (c : char) : bool :=
  existsb (N.eqb c) (lit ".^$*?{}[]|").

Definition ascii_alnum (c : char) : bool :=
  ((48 <=? c) && (c <=? 57) || (65 <=? c) && (c <=? 90) || (97 <=? c) && (c <=? 122))%N.

(** [\c] for a character [c]: [\w] is the word class, an escaped ASCII
    punctuation character stands for itself; other escapes are not part of
    the fragment. *)
Definition escape (c : char) : exc atom :=
  if (c =? chr "w")%N then ret Word
  else if ascii_alnum c || (128 <=? c)%N then raise re_error
  else ret (Chr c).

Fixpoint tokens (s : str) : exc (list token) :=
  match s with
  | [] => ret []
  | c :: t =>
    if (c =? chr "\")%N then
      match t with
      | [] => raise re_error
      | e :: t' => a <- escape e ;; ts <- tokens t' ;; ret (TAtom a :: ts)
      end
    else if (c =? chr "(")%N then ts <- tokens t ;; ret (TOpen :: ts)
    else if (c =? chr ")")%N then ts <- tokens t ;; ret (TClose :: ts)
    else if (c =? chr "+")%N then ts <- tokens t ;; ret (TPlus :: ts)
    else if is_meta c then raise re_error
    else ts <- tokens t ;; ret (TAtom (Chr c) :: ts)
  end.

(** Quantifiers are attached to the atom before them; [inside] tells whether
    a group is open (groups do not nest in the fragment). *)
Fixpoint nodes (inside : bool) (ts : list token) : exc pattern :=
  match ts with
  | [] => if inside then raise re_error else ret []
  | TAtom a :: TPlus :: ts' => p <- nodes inside ts' ;; ret (Many1 a :: p)
  | TAtom a :: ts' => p <- nodes inside ts' ;; ret (One a :: p)
  | TPlus :: _ => raise re_error
  | TOpen :: ts' =>
    if inside then raise re_error else p <- nodes true ts' ;; ret (Open :: p)
  | TClose :: ts' =>
    if inside then p <- nodes false ts' ;; ret (Close :: p) else raise re_error
  end.

(** [re.compile] *)
Definition compile (pat : string) : exc pattern :=
  ts <- tokens (lit pat) ;; nodes false ts.

(** A match object: the length of the matched text and the captured groups. *)
Record mobj := MObj { m_len : nat; m_groups : list str }.

(** [match.group(n)] for [n >= 1] *)
Definition group (m : mobj) (n : nat) : exc str :=
  match n with
  | O => raise IndexError
  | S k => match nth_error (m_groups m) k with
           | Some g => ret g
           | None => raise IndexError
           end
  end.

Section Matcher.

(** The word characters outside ASCII: CPython takes them from its Unicode
    database, which is not part of the repository. *)
Variable unicode_word : char -> bool.

Definition is_word (c : char) : bool :=
  if (c <? 128)%N then ascii_alnum c || (c =? chr "_")%N else unicode_word c.

Definition accepts (a : atom) (c : char) : bool :=
  match a with
  | Chr c' => (c' =? c)%N
  | Word => is_word c
  end.

(** The text of the open group is collected in reverse. *)
Definition push (c : char) (cur : option str) : option str :=
  match cur with
  | Some acc => Some (c :: acc)
  | None => None
  end.

Definition close (cur : option str) (gs : list str) : list str :=
  match cur with
  | Some acc => gs ++ [rev acc]
  | None => gs
  end.

(** The greedy loop of [a+] after its first character: take one more
    character when possible, and fall back to the rest of the pattern [k]
    when the longer attempt fails. *)
Fixpoint greedy (a : atom) (k : nat -> option str -> str -> option mobj)
    (n : nat) (cur : option str) (s : str) : option mobj :=
  match s with
  | c :: t =>
    if accepts a c then
      match greedy a k (S n) (push c cur) t with
      | Some m => Some m
      | None => k n cur s
      end
    else k n cur s
  | [] => k n cur s
  end.

(** [match_here p n cur gs s]: match [p] at the start of [s], after [n]
    characters of the match, with the groups [gs] closed so far. *)
Fixpoint match_here (p : pattern) (n : nat) (cur : option str) (gs : list str)
    (s : str) : option mobj :=
  match p with
  | [] => Some (MObj n gs)
  | One a :: p' =>
    match s with
    | c :: t => if accepts a c then match_here p' (S n) (push c cur) gs t else None
    | [] => None
    end
  | Many1 a :: p' =>
    match s with
    | c :: t =>
      if accepts a c
      then greedy a (fun n' cur' s' => match_here p' n' cur' gs s') (S n) (push c cur) t
      else None
    | [] => None
    end
  | Open :: p' => match_here p' n (Some []) gs s
  | Close :: p' => match_here p' n None (close cur gs) s
  end.

(** [pattern.match(s)] at the start of [s] *)
Definition match_at (p : pattern) (s : str) : option mobj :=
  match_here p 0 None [] s.

(** The texts that a pattern denotes, and the texts with an occurrence of it. *)
Fixpoint lang (p : pattern) (s : str) : Prop :=
  match p with
  | [] => s = []
  | One a :: p' => exists c t, s = c :: t /\ accepts a c = true /\ lang p' t
  | Many1 a :: p' =>
    exists w t, w <> [] /\ Forall (fun c => accepts a c = true) w /\
                s = w ++ t /\ lang p' t
  | Open :: p' => lang p' s
  | Close :: p' => lang p' s
  end.

Definition contains (p : pattern) (x : str) : Prop :=
  exists a m b, x = a ++ m ++ b /\ lang p m.

(** The text has an occurrence of the pattern written [pat]. *)
Definition has_match (pat : string) (x : str) : Prop :=
  exists p, compile pat = ret p /\ contains p x.

(** The loop of [re.sub]: scan from the left, replace a match and continue
    after it, copy a character where nothing matches.  [skip] counts the
    characters of the last match that are still to be passed over.  An empty
    match is replaced and the character after it is copied; the end of the
    text is a place like the others. *)
Fixpoint sub_loop (p : pattern) (repl : mobj -> exc str) (skip : nat) (s : str)
    : exc str :=
  match s with
  | [] =>
    match skip, match_at p [] with
    | O, Some m => repl m
    | _, _ => ret []
    end
  | c :: t =>
    match skip with
    | S k => sub_loop p repl k t
    | O =>
      match match_at p s with
      | Some m =>
        r <- repl m ;;
        match m_len m with
        | O => rest <- sub_loop p repl 0 t ;; ret (r ++ c :: rest)
        | S k => rest <- sub_loop p repl k t ;; ret (r ++ rest)
        end
      | None => rest <- sub_loop p repl 0 t ;; ret (c :: rest)
      end
    end
  end.

(** The replacement argument of [re.sub]: a template string or a callable. *)
Inductive replacement :=
| Template (t : string)
| Callable (f : mobj -> exc str).

(** A template without a backslash stands for itself; templates with escapes
    or group references are not part of the fragment. *)
Definition expand (t : string) : exc str :=
  if existsb (N.eqb (chr "\")) (lit t) then raise re_error else ret (lit t).

Definition re_sub (pat : string) (repl : replacement) (s : str) : exc str :=
  p <- compile pat ;;
  f <- match repl with
       | Template t => r <- expand t ;; ret (fun _ : mobj => ret r)
       | Callable f => ret f
       end ;;
  sub_loop p f 0 s.

(** ** [fix_id_parsing] *)

Definition pattern1 : string := "const \{ id \} = req\.params;".

Definition replacement1 : string :=
  "const id = parseInt(req.params.id);" ++ NL ++
  "    if (isNaN(id)) {" ++ NL ++
  "      return res.status(400).json({ success: false, error: 'Invalid ID' });" ++ NL ++
  "    }".

Definition pattern2 : string := "const (\w+Id) = req\.params\.id;".

Definition replacement2 (m : mobj) : exc str :=
  var_name <- group m 1 ;;
  ret (lit "const " ++ var_name ++ lit (" = parseInt(req.params.id);" ++ NL ++
       "    if (isNaN(") ++ var_name ++ lit (")) {" ++ NL ++
       "      return res.status(400).json({ success: false, error: 'Invalid ID' });" ++ NL ++
       "    }")).

Definition fix_id_parsing (content : str) : exc str :=
  content <- re_sub pattern1 (Template replacement1) content ;;
  content <- re_sub pattern2 (Callable replacement2) content ;;
  ret content.

End Matcher.

(** ** The two rules as the specification words them

    A rule finds a fragment at the start of a text and gives its length and
    the name of the variable it binds; both rules put the same guarded
    binding in its place. *)

Fixpoint starts_with (p s : str) : bool :=
  match p, s with
  | [], _ => true
  | _ :: _, [] => false
  | a :: p', c :: s' => (a =? c)%N && starts_with p' s'
  end.

(** Some suffix of [s] is [p]. *)
Fixpoint ends_with (p s : str) : bool :=
  bool_decide (s = p) ||
  match s with
  | _ :: s' => ends_with p s'
  | [] => false
  end.

(** The longest prefix whose characters satisfy [f], and the rest. *)
Fixpoint span (f : char -> bool) (s : str) : str * str :=
  match s with
  | c :: t => if f c then let '(u, r) := span f t in (c :: u, r) else ([], s)
  | [] => ([], [])
  end.

(** [const { id } = req.params;] *)
Definition destructured : str := lit "const { id } = req.params;".

(** [const v = req.params.id;] *)
Definition assigned (v : str) : str := lit "const " ++ v ++ lit " = req.params.id;".

(** The binding of [v] to the parsed parameter and the guard that answers 400. *)
Definition guarded (v : str) : str :=
  lit "const " ++ v ++ lit (" = parseInt(req.params.id);" ++ NL ++
  "    if (isNaN(") ++ v ++ lit (")) {" ++ NL ++
  "      return res.status(400).json({ success: false, error: 'Invalid ID' });" ++ NL ++
  "    }").

Definition rule := str -> option (nat * str).

(** Rule 1: the destructuring of [id]. *)
Definition rule1 : rule := fun s =>
  if starts_with destructured s then Some (length destructured, lit "id") else None.

Section Rules.

Variable unicode_word : char -> bool.

(** Rule 2: the assignment of [req.params.id] to a variable [<word>Id], where
    [<word>] is one or more word characters. *)
Definition rule2 : rule := fun s =>
  if starts_with (lit "const ") s then
    let '(v, r) := span (is_word unicode_word) (drop 6 s) in
    if (2 <? length v) && ends_with (lit "Id") v && starts_with (lit " = req.params.id;") r
    then Some (length (assigned v), v)
    else None
  else None.

(** The names that Rule 2 takes: word characters, [Id] at the end and at
    least one character before it. *)
Definition named (v : str) : Prop :=
  Forall (fun c => is_word unicode_word c = true) v /\
  (2 <? length v) && ends_with (lit "Id") v = true.

(** Replace every fragment of a rule, from the left. *)
Fixpoint rewrite_all (r : rule) (skip : nat) (s : str) : str :=
  match s with
  | [] => []
  | c :: t =>
    match skip with
    | S k => rewrite_all r k t
    | O =>
      match r s with
      | Some (n, v) => guarded v ++ rewrite_all r (Nat.pred n) t
      | None => c :: rewrite_all r 0 t
      end
    end
  end.

(** Rule 1, then Rule 2. *)
Definition transform (x : str) : str :=
  rewrite_all rule2 0 (rewrite_all rule1 0 x).

End Rules.

(** ** The script: the file system and the loop over the route files *)

(** A directory entry: its text as [read()] returns it, and whether it can be
    opened for reading and for writing. *)
Record file := File { text : str; readable : bool; writable : bool }.

Inductive line :=
| Processing (filepath : string)
| Fixed (filepath : string)
| NoChanges (filepath : string)
| Done.

(** The world of a run: the entries by path, the paths written so far (in
    order), and the lines printed so far. *)
Record world := World {
  disk : gmap string file;
  written : list string;
  console : list line }.

Definition io (A : Type) : Type := world -> world * exc A.
Definition io_ret {A} (a : A) : io A := fun w => (w, ret a).
Definition io_bind {A B} (m : io A) (k : A -> io B) : io B := fun w =>
  match m w with
  | (w', inl e) => (w', inl e)
  | (w', inr a) => k a w'
  end.
Definition lift {A} (m : exc A) : io A := fun w => (w, m).

Declare Scope io_scope.
Delimit Scope io_scope with io.
Notation "x <~ m ;; k" := (io_bind m (fun x => k))
  (at level 62, m at next level, right associativity) : io_scope.
Notation "m ;;; k" := (io_bind m (fun _ => k))
  (at level 62, right associativity) : io_scope.

Definition print (l : line) : io unit := fun w =>
  (World (disk w) (written w) (console w ++ [l]), ret tt).

(** [open(filepath, 'r')] and [f.read()] *)
Definition read (filepath : string) : io str := fun w =>
  match disk w !! filepath with
  | Some f => if readable f then (w, ret (text f)) else (w, raise OSError)
  | None => (w, raise OSError)
  end.

(** [open(filepath, 'w')] and [f.write(content)]: the entry is created when
    the path has none. *)
Definition write (filepath : string) (content : str) : io unit := fun w =>
  match disk w !! filepath with
  | Some f =>
    if writable f then
      (World (<[filepath := File content (readable f) (writable f)]> (disk w))
             (written w ++ [filepath]) (console w), ret tt)
    else (w, raise OSError)
  | None =>
    (World (<[filepath := File content true true]> (disk w))
           (written w ++ [filepath]) (console w), ret tt)
  end.

Definition routes_dir : string := "src/routes".

(** The names that [*.ts] matches: they end in [.ts], hold no [/] and do not
    start with a dot. *)
Definition matches_ts (name : string) : bool :=
  let n := String.length name in
  String.eqb (substring (n - 3) 3 name) ".ts"
  && negb (String.prefix "." name)
  && forallb (fun a => negb (Ascii.eqb a "/")) (list_ascii_of_string name).

Definition in_routes (filepath : string) : bool :=
  let d := (routes_dir ++ "/")%string in
  String.prefix d filepath
  && matches_ts (substring (String.length d) (String.length filepath - String.length d) filepath).

(** [glob.glob(f"{routes_dir}/*.ts")]; the order is the one of the map. *)
Definition glob (w : world) : list string :=
  filter (fun p => in_routes p = true) (map fst (map_to_list (disk w))).

Section Script.

Variable unicode_word : char -> bool.

Local Open Scope io_scope.

(** The body of the loop. *)
Definition process (filepath : string) : io unit :=
  print (Processing filepath) ;;;
  content <~ read filepath ;;
  let original := content in
  content <~ lift (fix_id_parsing unicode_word content) ;;
  if decide (content <> original) then
    write filepath content ;;;
    print (Fixed filepath)
  else
    print (NoChanges filepath).

Fixpoint for_each (files : list string) : io unit :=
  match files with
  | [] => io_ret tt
  | filepath :: rest => process filepath ;;; for_each rest
  end.

Definition main : io unit := fun w =>
  let files := glob w in
  (for_each files ;;; print Done) w.

End Script.

(** The patterns as [re.compile] gives them. *)
Definition lits (s : string) : pattern := map (fun c => One (Chr c)) (lit s).

Definition compiled1 : pattern := lits "const { id } = req.params;".

Definition compiled2 : pattern :=
  lits "const " ++ [Open; Many1 Word] ++ lits "Id" ++ [Close] ++ lits " = req.params.id;".

(** The open group after the characters of [l]. *)
Definition pushes (l : str) (cur : option str) : option str :=
  match cur with
  | Some acc => Some (rev l ++ acc)
  | None => None
  end.

(** The rest of [pattern2] after [\w+]. *)
Definition after_word : pattern := lits "Id" ++ [Close] ++ lits " = req.params.id;".

(** A fragment is never empty and lies within the text. *)
Definition bounded (r : rule) : Prop :=
  forall s n v, r s = Some (n, v) -> 1 <= n <= length s.

(** What a rule finds before [k] does not depend on [k] and what follows it. *)
Definition blind (r : rule) (k : str) : Prop :=
  forall a z, a <> [] -> r (a ++ k ++ z) = r a.

(** A rule finds nothing at any place inside [x] when [y] follows. *)
Inductive quiet (r : rule) : str -> str -> Prop :=
| quiet_nil y : quiet r [] y
| quiet_cons c x y : r (c :: x ++ y) = None -> quiet r x y -> quiet r (c :: x) y.

(** The text has a fragment of the rule somewhere. *)
Definition occurs (r : rule) (x : str) : Prop :=
  exists a b, x = a ++ b /\ r b <> None.

(** [occurs], decided from the left. *)
Fixpoint occursb (r : rule) (x : str) : bool :=
  match r x with
  | Some _ => true
  | None =>
    match x with
    | [] => false
    | _ :: t => occursb r t
    end
  end.

(** What a rule puts in is longer than the fragment it takes out. *)
Definition grows (r : rule) : Prop :=
  forall s n v, r s = Some (n, v) -> n < length (guarded v).

(** ** The entries after a turn of the loop *)

Section Turn.

Variable unicode_word : char -> bool.

(** The entry of a file that the loop has passed over. *)
Definition rewritten (f : file) : file :=
  match fix_id_parsing unicode_word (text f) with
  | inr content => File content (readable f) (writable f)
  | inl _ => f
  end.

(** The rewriter changes the text of the entry at [filepath]. *)
Definition changes (w : world) (filepath : string) : bool :=
  match disk w !! filepath with
  | Some f =>
    match fix_id_parsing unicode_word (text f) with
    | inr content => bool_decide (content <> text f)
    | inl _ => false
    end
  | None => false
  end.

(** The loop gets past [filepath]: its entry can be read, and can be written
    if its text changes. *)
Definition passable (w : world) (filepath : string) : bool :=
  match disk w !! filepath with
  | Some f => readable f && (negb (changes w filepath) || writable f)
  | None => false
  end.

(** The two lines of a turn that finishes. *)
Definition report (w : world) (filepath : string) : list line :=
  [Processing filepath;
   if changes w filepath then Fixed filepath else NoChanges filepath].

End Turn.

(** ** The model on small inputs *)

(** [\w+] gives characters back until the rest of the pattern matches. *)
Example re_sub_backtracks :
  re_sub (fun _ => false) "\w+c" (Template "<>") (lit "abbbcbc abcd cc c") =
  ret (lit "<> <>d <> c").
Proof. reflexivity. Qed.

(** Matches are taken from the left and do not overlap. *)
Example re_sub_leftmost :
  re_sub (fun _ => false) "b+" (Template "-") (lit "abbbcb") = ret (lit "a-c-").
Proof. reflexivity. Qed.

(** The group of [pattern2] is the whole name. *)
Example match_at_group :
  match_at (fun _ => false) compiled2 (lit "const postId = req.params.id; // x") =
  Some (MObj 29 [lit "postId"]).
Proof. reflexivity. Qed.

(** A name needs a character before [Id], and [$] is no word character. *)
Example fix_id_parsing_near_misses :
  fix_id_parsing (fun _ => false)
    (lit "const Id = req.params.id; const $aId = req.params.id;") =
  ret (lit "const Id = req.params.id; const $aId = req.params.id;").
Proof. reflexivity. Qed.

(** A letter outside ASCII counts when the Unicode table says so. *)
Example fix_id_parsing_unicode :
  fix_id_parsing (fun c => (c =? 233)%N)
    (lit "const " ++ [233%N] ++ lit "Id = req.params.id;") =
  ret (guarded ([233%N] ++ lit "Id")).
Proof. reflexivity. Qed.

(** Only the files directly under [src/routes] whose names match [*.ts] are
    processed, and only the one with a fragment is written. *)
Example main_on_four_entries :
  let w := World (list_to_map
    [("src/routes/users.ts", File (lit "const { id } = req.params;") true true);
     ("src/routes/index.ts", File (lit "export default router;") true true);
     ("src/routes/v2/posts.ts", File (lit "const { id } = req.params;") true true);
     ("src/routes/.hidden.ts", File (lit "const { id } = req.params;") true true)])
    [] [] in
  written (main (fun _ => false) w).1 = ["src/routes/users.ts"] /\
  text <$> disk (main (fun _ => false) w).1 !! "src/routes/users.ts" =
    Some (lit replacement1) /\
  text <$> disk (main (fun _ => false) w).1 !! "src/routes/v2/posts.ts" =
    Some (lit "const { id } = req.params;").
Proof. by vm_compute. Qed.

(** ** Lemmas on strings *)

Local Arguments N.eqb !n !m.

Lemma starts_with_app p s : starts_with p (p ++ s) = true.
Proof. induction p as [|a p IH]; simpl; [done|]. by rewrite N.eqb_refl. Qed.

Lemma starts_with_inv p s : starts_with p s = true -> s = p ++ drop (length p) s.
Proof.
  revert s; induction p as [|a p IH]; intros [|c s]; simpl; try done.
  intros [Hc Hs]%andb_true_iff. apply N.eqb_eq in Hc as ->. f_equal; auto.
Qed.

Lemma starts_with_length p s : starts_with p s = true -> length p <= length s.
Proof. intros ->%starts_with_inv. rewrite length_app. lia. Qed.

Lemma starts_with_cons a p c s :
  starts_with (a :: p) (c :: s) = (a =? c)%N && starts_with p s.
Proof. done. Qed.

Lemma starts_with_cons_nil a p : starts_with (a :: p) [] = false.
Proof. done. Qed.

Lemma starts_with_app_l a b s :
  starts_with (a ++ b) s = starts_with a s && starts_with b (drop (length a) s).
Proof.
  revert s; induction a as [|x a IH]; intros s; simpl.
  - by rewrite drop_0.
  - destruct s as [|c s]; [done|]. simpl. by rewrite IH, andb_assoc.
Qed.

Lemma ends_with_length p u : ends_with p u = true -> length p <= length u.
Proof.
  induction u as [|c u IH]; simpl.
  - rewrite orb_false_r. by intros <-%bool_decide_eq_true.
  - intros [<-%bool_decide_eq_true|H]%orb_true_iff; simpl; [lia|]. specialize (IH H). lia.
Qed.

Lemma span_spec f s u r :
  span f s = (u, r) ->
  s = u ++ r /\ Forall (fun c => f c = true) u /\
  match r with [] => True | d :: _ => f d = false end.
Proof.
  revert u r; induction s as [|c t IH]; simpl; intros u r.
  - by intros [= <- <-].
  - destruct (f c) eqn:Hc.
    + destruct (span f t) as [u' r'] eqn:Ht. intros [= <- <-].
      destruct (IH _ _ eq_refl) as (-> & Hu & Hr). auto.
    + intros [= <- <-]. by rewrite Hc.
Qed.

Lemma span_app f u d r :
  Forall (fun c => f c = true) u -> f d = false -> span f (u ++ d :: r) = (u, d :: r).
Proof.
  induction 1 as [|c u Hc Hu IH]; simpl; intros Hd.
  - by rewrite Hd.
  - by rewrite Hc, IH.
Qed.

Ltac norm_lits :=
  repeat match goal with
  | |- context [lit ?s] =>
    let v := eval vm_compute in (lit s) in change (lit s) with v
  | H : context [lit ?s] |- _ =>
    let v := eval vm_compute in (lit s) in change (lit s) with v in H
  end.

(** ** The matcher on the two patterns *)

Section Engine.

Variable unicode_word : char -> bool.
Local Abbreviation wordc := (is_word unicode_word).
Local Abbreviation mhere := (match_here unicode_word).
Local Abbreviation mat := (match_at unicode_word).

Lemma match_here_lits l p n cur gs s :
  mhere (map (fun c => One (Chr c)) l ++ p) n cur gs s =
  if starts_with l s
  then mhere p (n + length l) (pushes l cur) gs (drop (length l) s)
  else None.
Proof.
  revert n cur s; induction l as [|a l IH]; intros n cur s.
  - simpl. rewrite Nat.add_0_r, drop_0. by destruct cur.
  - destruct s as [|c t]; [done|]. cbn [map app match_here starts_with accepts].
    destruct (N.eqb_spec a c) as [->|Hne]; [|done].
    cbn [andb length drop]. rewrite IH. replace (S n + length l) with (n + S (length l)) by lia.
    destruct cur as [acc|]; cbn [push pushes rev]; [|done].
    by rewrite <- app_assoc.
Qed.

Lemma match_at_compiled1 s :
  mat compiled1 s =
  if starts_with destructured s then Some (MObj (length destructured) []) else None.
Proof.
  unfold match_at, compiled1, lits.
  rewrite <- (app_nil_r (map _ _)), match_here_lits. done.
Qed.

Lemma word_I : wordc 73%N = true. Proof. reflexivity. Qed.
Lemma word_d : wordc 100%N = true. Proof. reflexivity. Qed.
Lemma word_space : wordc 32%N = false. Proof. reflexivity. Qed.

Lemma after_word_spec n acc s :
  mhere after_word n (Some acc) [] s =
  if starts_with (lit "Id = req.params.id;") s
  then Some (MObj (n + 19) [rev acc ++ lit "Id"]) else None.
Proof.
  unfold after_word, lits. rewrite match_here_lits.
  change (lit "Id = req.params.id;") with (lit "Id" ++ lit " = req.params.id;").
  rewrite starts_with_app_l. destruct (starts_with (lit "Id") s); [|done].
  cbn [app match_here pushes close andb].
  rewrite <- (app_nil_r (map _ (lit " = req.params.id;"))), match_here_lits.
  destruct (starts_with _ (drop _ s)); [|done].
  cbn [match_here]. f_equal. f_equal.
  - norm_lits. simpl. lia.
  - norm_lits. simpl. by rewrite <- app_assoc.
Qed.

Lemma greedy_word t : forall n acc,
  greedy unicode_word Word (fun n' cur' s' => mhere after_word n' cur' [] s') n (Some acc) t =
  let '(u, r) := span wordc t in
  if ends_with (lit "Id") u && starts_with (lit " = req.params.id;") r
  then Some (MObj (n + length u + 17) [rev acc ++ u]) else None.
Proof.
  induction t as [|c t IH]; intros n acc.
  - cbn [greedy span]. rewrite after_word_spec. done.
  - cbn [greedy span accepts]. destruct (wordc c) eqn:Hc.
    + cbn [push]. rewrite IH. destruct (span wordc t) as [u r] eqn:Hsp.
      apply span_spec in Hsp as (-> & Hu & Hr).
      cbn [ends_with].
      destruct (ends_with (lit "Id") u && starts_with (lit " = req.params.id;") r) eqn:E.
      * apply andb_true_iff in E as [-> ->]. rewrite orb_true_r. cbn [andb].
        f_equal. f_equal; [simpl; lia|]. simpl. by rewrite <- app_assoc.
      * rewrite after_word_spec.
        destruct (decide (c :: u = lit "Id")) as [Heq|Hne].
        -- rewrite (bool_decide_eq_true_2 _ Heq). cbn [orb andb].
           change (lit "Id = req.params.id;") with (lit "Id" ++ lit " = req.params.id;").
           change (c :: u ++ r) with ((c :: u) ++ r). rewrite Heq.
           rewrite starts_with_app_l, starts_with_app, drop_app_length. cbn [andb].
           destruct (starts_with _ r); [|done]. f_equal. f_equal.
           apply (f_equal length) in Heq. simpl in Heq. simpl. lia.
        -- rewrite (bool_decide_eq_false_2 _ Hne). cbn [orb]. rewrite E.
           destruct (starts_with _ (c :: u ++ r)) eqn:Hs; [exfalso|done].
           norm_lits. rewrite starts_with_cons in Hs.
           apply andb_true_iff in Hs as [<-%N.eqb_eq Hs].
           destruct u as [|x [|y u]]; cbn [app] in Hs.
           ++ destruct r as [|d r]; [done|]. rewrite starts_with_cons in Hs.
              apply andb_true_iff in Hs as [<-%N.eqb_eq _]. by rewrite word_d in Hr.
           ++ rewrite starts_with_cons in Hs.
              apply andb_true_iff in Hs as [<-%N.eqb_eq _]. by apply Hne.
           ++ rewrite !starts_with_cons in Hs.
              apply andb_true_iff in Hs as [_ Hs].
              apply andb_true_iff in Hs as [<-%N.eqb_eq _].
              apply Forall_cons in Hu as [_ [Hy _]%Forall_cons]. by rewrite word_space in Hy.
    + rewrite after_word_spec. cbn [ends_with]. rewrite orb_false_r.
      replace (bool_decide ([] = lit "Id")) with false by done. cbn [andb].
      destruct (starts_with _ (c :: t)) eqn:Hs; [exfalso|done].
      norm_lits. rewrite starts_with_cons in Hs.
      apply andb_true_iff in Hs as [<-%N.eqb_eq _]. by rewrite word_I in Hc.
Qed.

Lemma match_at_compiled2 s :
  mat compiled2 s =
  match rule2 unicode_word s with
  | Some (n, v) => Some (MObj n [v])
  | None => None
  end.
Proof.
  unfold match_at, compiled2, rule2.
  change (lits "Id" ++ [Close] ++ lits " = req.params.id;") with after_word.
  unfold lits at 1. rewrite match_here_lits.
  destruct (starts_with (lit "const ") s); [|done].
  change (length (lit "const ")) with 6.
  cbn [app match_here pushes Nat.add].
  destruct (drop 6 s) as [|c t]; [done|].
  cbn [span accepts]. destruct (wordc c) eqn:Hc; [|done].
  cbn [push]. rewrite greedy_word.
  destruct (span wordc t) as [u r]. cbn [length ends_with].
  destruct (ends_with (lit "Id") u) eqn:E.
  - rewrite orb_true_r. apply ends_with_length in E as Hlen.
    change (length (lit "Id")) with 2 in Hlen.
    replace (2 <? S (length u)) with true by (symmetry; apply Nat.ltb_lt; lia).
    cbn [andb]. destruct (starts_with _ r); [|done].
    f_equal. f_equal. unfold assigned. rewrite !length_app. simpl. lia.
  - cbn [andb]. rewrite orb_false_r.
    destruct (decide (c :: u = lit "Id")) as [Heq|Hne].
    + norm_lits. injection Heq as -> ->. done.
    + by rewrite (bool_decide_eq_false_2 _ Hne), andb_false_r.
Qed.

Lemma compile_pattern1 : compile pattern1 = ret compiled1.
Proof. reflexivity. Qed.

Lemma compile_pattern2 : compile pattern2 = ret compiled2.
Proof. reflexivity. Qed.

Lemma expand_replacement1 : expand replacement1 = ret (guarded (lit "id")).
Proof. reflexivity. Qed.

Lemma sub_loop_rewrite_all p repl (r : rule) :
  bounded r ->
  (forall s, match r s with
             | Some (n, v) =>
               exists m, mat p s = Some m /\ m_len m = n /\ repl m = ret (guarded v)
             | None => mat p s = None
             end) ->
  forall s k, sub_loop unicode_word p repl k s = ret (rewrite_all r k s).
Proof.
  intros Hb H s; induction s as [|c t IH]; intros k.
  - cbn [sub_loop rewrite_all]. destruct k as [|k]; [|done].
    specialize (H []). destruct (r []) as [[n v]|] eqn:E; [|by rewrite H].
    apply Hb in E. simpl in E. lia.
  - cbn [sub_loop rewrite_all]. destruct k as [|k]; [|apply IH].
    specialize (H (c :: t)). destruct (r (c :: t)) as [[n v]|] eqn:E.
    + destruct H as (m & -> & <- & ->). cbn [bind ret].
      apply Hb in E as [Hn _]. destruct (m_len m) as [|n]; [lia|].
      by rewrite IH.
    + rewrite H, IH. done.
Qed.

End Engine.

(** ** Rewriting with a rule *)

Section Rewriting.

Variable r : rule.
Hypothesis r_bounded : bounded r.

Local Abbreviation rw := (rewrite_all r 0).

Lemma rewrite_all_skip k s : rewrite_all r k s = rw (drop k s).
Proof.
  revert k; induction s as [|c t IH]; intros [|k]; try done.
  cbn [rewrite_all drop]. apply IH.
Qed.

Lemma rewrite_all_hit s n v : r s = Some (n, v) -> rw s = guarded v ++ rw (drop n s).
Proof.
  intros H. destruct (r_bounded _ _ _ H) as [Hn Hs].
  destruct s as [|c t]; [simpl in Hs; lia|].
  cbn [rewrite_all]. rewrite H, rewrite_all_skip.
  destruct n as [|n]; [lia|]. done.
Qed.

Lemma rewrite_all_miss c t : r (c :: t) = None -> rw (c :: t) = c :: rw t.
Proof. intros H. cbn [rewrite_all]. by rewrite H. Qed.

Lemma r_nil : r [] = None.
Proof.
  destruct (r []) as [[n v]|] eqn:H; [|done].
  apply r_bounded in H. simpl in H. lia.
Qed.

Lemma quiet_app x x' y : quiet r x (x' ++ y) -> quiet r x' y -> quiet r (x ++ x') y.
Proof.
  remember (x' ++ y) as y' eqn:Hy. intros Hq; revert Hy.
  induction Hq as [|c x y' Hc Hq IH]; intros -> Hq'; [done|].
  simpl. constructor; [by rewrite <- app_assoc|auto].
Qed.

Lemma rewrite_all_quiet x y : quiet r x y -> rw (x ++ y) = x ++ rw y.
Proof.
  induction 1 as [|c x y Hc Hq IH]; [done|].
  rewrite <- !app_comm_cons, rewrite_all_miss by done. by rewrite IH.
Qed.

(** A rule that finds nothing anywhere leaves the text as it is. *)
Lemma rewrite_all_absent x : ~ occurs r x -> rw x = x.
Proof.
  induction x as [|c t IH]; intros Hx; [done|].
  rewrite rewrite_all_miss.
  - f_equal. apply IH. intros (a & b & -> & Hb). apply Hx. by exists (c :: a), b.
  - destruct (r (c :: t)) eqn:E; [|done]. exfalso. apply Hx. exists [], (c :: t).
    split; [done|]. by rewrite E.
Qed.

Lemma occurs_dec x : occurs r x \/ ~ occurs r x.
Proof.
  induction x as [|c t [IH|IH]].
  - right. intros (a & b & Hab & Hb). symmetry in Hab.
    apply app_eq_nil in Hab as [_ ->]. by rewrite r_nil in Hb.
  - left. destruct IH as (a & b & -> & Hb). by exists (c :: a), b.
  - destruct (r (c :: t)) eqn:E.
    + left. exists [], (c :: t). split; [done|]. by rewrite E.
    + right. intros (a & b & Hab & Hb). destruct a as [|c' a].
      * simpl in Hab. subst b. by rewrite E in Hb.
      * injection Hab as -> ->. apply IH. by exists a, b.
Qed.

(** A block [k] that the rule does not see from the left and that it rewrites
    to [k'] whatever follows splits the text. *)
Lemma rewrite_all_split k k' :
  blind r k ->
  (forall z, rw (k ++ z) = k' ++ rw z) ->
  forall a z, rw (a ++ k ++ z) = rw a ++ k' ++ rw z.
Proof.
  intros Hblind Hk a z.
  remember (length a) as n eqn:Hn. revert a Hn.
  induction n as [n IH] using lt_wf_ind. intros [|c a] Hn; [apply Hk|].
  assert (Hr : r ((c :: a) ++ k ++ z) = r (c :: a)) by by apply Hblind.
  destruct (r (c :: a)) as [[m v]|] eqn:E.
  - rewrite (rewrite_all_hit _ _ _ Hr), (rewrite_all_hit _ _ _ E).
    destruct (r_bounded _ _ _ E) as [Hm1 Hm2].
    rewrite drop_app_le by done. rewrite <- app_assoc. f_equal.
    apply (IH (length (drop m (c :: a)))); [|done].
    rewrite length_drop. subst n. simpl in *. lia.
  - rewrite <- app_comm_cons in Hr. rewrite <- app_comm_cons.
    rewrite !rewrite_all_miss by done. rewrite <- app_comm_cons. f_equal.
    by apply (IH (length a)); [subst n; simpl; lia|].
Qed.

Lemma rewrite_all_split_quiet k :
  blind r k -> (forall z, quiet r k z) ->
  forall a z, rw (a ++ k ++ z) = rw a ++ k ++ rw z.
Proof.
  intros Hblind Hq. apply rewrite_all_split; [done|].
  intros z. by apply rewrite_all_quiet.
Qed.

Lemma rewrite_all_split_exact k v :
  blind r k -> (forall z, r (k ++ z) = Some (length k, v)) ->
  forall a z, rw (a ++ k ++ z) = rw a ++ guarded v ++ rw z.
Proof.
  intros Hblind Hk. apply rewrite_all_split; [done|].
  intros z. rewrite (rewrite_all_hit _ _ _ (Hk z)). by rewrite drop_app_length.
Qed.

End Rewriting.

(** ** The two rules *)

Lemma starts_with_skip (x : char) p a y :
  p <> [] -> forallb (fun b => negb (b =? x)%N) p = true ->
  starts_with p (a ++ x :: y) = starts_with p a.
Proof.
  revert a; induction p as [|b p IH]; intros a Hp Hx; [done|].
  cbn [forallb] in Hx. apply andb_true_iff in Hx as [Hb Hx].
  destruct a as [|c a].
  - cbn [app]. rewrite starts_with_cons, starts_with_cons_nil.
    by apply negb_true_iff in Hb as ->.
  - rewrite <- app_comm_cons, !starts_with_cons. f_equal.
    destruct p as [|b' p]; [done|]. by apply IH.
Qed.

Lemma ends_with_last p u (x : char) :
  p <> [] -> ends_with p (u ++ [x]) = true -> exists p', p = p' ++ [x].
Proof.
  intros Hp. induction u as [|c u IH]; cbn [app ends_with].
  - intros [<-%bool_decide_eq_true|H]%orb_true_iff; [by exists []|].
    rewrite orb_false_r in H. by apply bool_decide_eq_true in H.
  - intros [<-%bool_decide_eq_true|H]%orb_true_iff; [by exists (c :: u)|auto].
Qed.

Lemma ends_with_app p u : ends_with p (u ++ p) = true.
Proof.
  induction u as [|c u IH]; cbn [app].
  - destruct p; cbn [ends_with]; by rewrite bool_decide_eq_true_2.
  - cbn [ends_with]. by rewrite IH, orb_true_r.
Qed.

Lemma bounded_rule1 : bounded rule1.
Proof.
  intros s n v. unfold rule1. destruct (starts_with destructured s) eqn:H; [|done].
  intros [= <- <-]. apply starts_with_length in H. split; [|done].
  change (length destructured) with 26. lia.
Qed.

Lemma blind_rule1 k : blind rule1 (99%N :: k).
Proof.
  intros [|c a] z Ha; [done|]. unfold rule1.
  change destructured with (99%N :: lit "onst { id } = req.params;").
  rewrite <- !app_comm_cons, !starts_with_cons.
  by rewrite starts_with_skip.
Qed.

Lemma blind_rule1_head k : head k = Some 99%N -> blind rule1 k.
Proof. destruct k as [|c k]; [done|]. intros [= ->]. apply blind_rule1. Qed.

Section Rule2.

Variable unicode_word : char -> bool.
Local Abbreviation wordc := (is_word unicode_word).
Local Abbreviation rule2' := (rule2 unicode_word).

Lemma rule2_inv s n v :
  rule2' s = Some (n, v) ->
  named unicode_word v /\ n = length (assigned v) /\ s = assigned v ++ drop n s.
Proof.
  unfold rule2. destruct (starts_with (lit "const ") s) eqn:Hc; [|done].
  destruct (span wordc (drop 6 s)) as [u r] eqn:Hsp.
  destruct (_ && starts_with _ r) eqn:E; [|done]. intros [= <- <-].
  apply andb_true_iff in E as [E Hr].
  apply span_spec in Hsp as (Hs & Hu & _).
  apply starts_with_inv in Hc, Hr.
  change (length (lit "const ")) with 6 in Hc.
  split; [done|]. split; [done|].
  unfold assigned. rewrite !length_app.
  change (length (lit "const ")) with 6.
  change (drop (S (S (S (S (S (S ?k)))))) s) with (drop (6 + k) s).
  rewrite <- !drop_drop, Hs, drop_app_length.
  by rewrite <- !app_assoc, <- Hr, <- Hs.
Qed.

Lemma bounded_rule2 : bounded rule2'.
Proof.
  intros s n v (_ & Hn & Hs)%rule2_inv.
  apply (f_equal length) in Hs. rewrite length_app, <- Hn in Hs.
  split; [|lia]. subst n. unfold assigned. rewrite length_app. simpl. lia.
Qed.

Lemma rule2_named v z :
  named unicode_word v -> rule2' (assigned v ++ z) = Some (length (assigned v), v).
Proof.
  intros [Hv E]. unfold rule2, assigned at 1 2. rewrite <- !app_assoc.
  rewrite starts_with_app.
  change 6 with (length (lit "const ")). rewrite drop_app_length.
  change (lit " = req.params.id;") with (32%N :: lit "= req.params.id;") at 1 2.
  rewrite <- app_comm_cons, span_app by (done || apply word_space).
  rewrite E. cbn [andb].
  change (32%N :: lit "= req.params.id;" ++ z) with (lit " = req.params.id;" ++ z).
  by rewrite starts_with_app.
Qed.

Lemma blind_rule2 k : blind rule2' (lit "const " ++ k).
Proof.
  intros a z Ha. unfold rule2.
  assert (Hc : starts_with (lit "const ") (a ++ (lit "const " ++ k) ++ z)
               = starts_with (lit "const ") a).
  { destruct a as [|c a]; [done|].
    change (lit "const ") with (99%N :: lit "onst ").
    rewrite <- !app_assoc, <- !app_comm_cons, !starts_with_cons.
    by rewrite starts_with_skip. }
  rewrite Hc. destruct (starts_with (lit "const ") a) eqn:Hs; [|done].
  apply starts_with_length in Hs as Hlen. change (length (lit "const ")) with 6 in Hlen.
  rewrite drop_app_le by done.
  destruct (span wordc (drop 6 a)) as [v r] eqn:Hsp.
  apply span_spec in Hsp as (-> & Hv & Hr).
  destruct r as [|d r].
  - rewrite andb_false_r, app_nil_r.
    change (lit "const " ++ k) with (lit "const" ++ 32%N :: k).
    rewrite <- !app_assoc, (app_assoc v), <- app_comm_cons.
    rewrite span_app; [|apply Forall_app; split; [done|]|apply word_space].
    + destruct (ends_with (lit "Id") (v ++ lit "const")) eqn:E.
      * change (lit "const") with (lit "cons" ++ [116%N]) in E.
        rewrite app_assoc in E. apply ends_with_last in E as [p' E]; [|done].
        change (lit "Id") with ([73%N] ++ [100%N]) in E.
        by apply app_inj_tail in E as [_ [=]].
      * by rewrite andb_false_r.
    + by repeat constructor.
  - rewrite <- !app_assoc, <- app_comm_cons, span_app by done.
    change (lit "const " ++ k ++ z) with (99%N :: lit "onst " ++ k ++ z).
    rewrite app_comm_cons, starts_with_skip by done. done.
Qed.

Lemma Forall_forallb (f : char -> bool) v :
  Forall (fun c => f c = true) v -> forallb f v = true.
Proof. induction 1 as [|c v Hc Hv IH]; [done|]. simpl. by rewrite Hc, IH. Qed.

(** Read a successful [starts_with] one character at a time. *)
Ltac sw_true H :=
  repeat (rewrite starts_with_cons in H;
          let E := fresh "E" in
          apply andb_true_iff in H as [E H]; apply N.eqb_eq in E; try subst).

(** A hypothesis that computes to an impossible equation. *)
Ltac word_clash :=
  exfalso;
  match goal with
  | H : is_word _ _ = false |- _ => vm_compute in H; discriminate H
  | H : forallb _ _ = true |- _ => vm_compute in H; discriminate H
  | H : _ && _ = false |- _ => vm_compute in H; discriminate H
  | H : @eq N _ _ |- _ => discriminate H
  end.

(** A run of word characters before the characters [d] and [e] starts no
    fragment of Rule 1, unless [d] and [e] are a space and a brace. *)
Lemma rule1_word_run v d e y :
  Forall (fun c => wordc c = true) v -> wordc d = false ->
  (d =? 32)%N && (e =? 123)%N = false ->
  rule1 (v ++ d :: e :: y) = None.
Proof.
  intros Hv%Forall_forallb Hd Hde. unfold rule1.
  destruct (starts_with _ _) eqn:Hs; [exfalso|done].
  unfold destructured in Hs. norm_lits.
  destruct v as [|c1 [|c2 [|c3 [|c4 [|c5 [|c6 v]]]]]]; cbn [app] in Hs;
    sw_true Hs; word_clash.
Qed.

(** Such a run starts no fragment of Rule 2 when [e] is no word character. *)
Lemma rule2_word_run v d e y :
  Forall (fun c => wordc c = true) v -> wordc d = false -> wordc e = false ->
  rule2' (v ++ d :: e :: y) = None.
Proof.
  intros Hv%Forall_forallb Hd He. unfold rule2.
  destruct (starts_with _ _) eqn:Hs; [|done].
  assert (v = lit "const" /\ d = 32%N) as [-> ->].
  { norm_lits.
    destruct v as [|c1 [|c2 [|c3 [|c4 [|c5 [|c6 v]]]]]]; cbn [app] in Hs;
      sw_true Hs; try word_clash. done. }
  change (drop 6 (lit "const" ++ 32%N :: e :: y)) with (e :: y).
  cbn [span]. by rewrite He.
Qed.

Lemma quiet_run (P : char -> Prop) (r : rule) v y :
  (forall v', Forall P v' -> r (v' ++ y) = None) -> Forall P v -> quiet r v y.
Proof.
  intros Hr. induction 1 as [|c v Hc Hv IH]; constructor; [|done].
  apply (Hr (c :: v)). by constructor.
Qed.

Lemma word_spaceless v :
  Forall (fun c => wordc c = true) v -> Forall (fun c : char => c <> 32%N) v.
Proof.
  intros Hv. eapply Forall_impl; [done|]. intros c Hc ->. by rewrite word_space in Hc.
Qed.

Lemma spaceless_forallb v :
  Forall (fun c : char => c <> 32%N) v ->
  forallb (fun c => negb (c =? 32)%N) v = true.
Proof.
  induction 1 as [|c v Hc Hv IH]; [done|]. cbn [forallb].
  rewrite IH, andb_true_r. by apply negb_true_iff, N.eqb_neq.
Qed.

(** A text is of word characters, or has a first character that is not. *)
Lemma word_prefix v :
  Forall (fun c => wordc c = true) v \/
  exists v1 c v2, v = v1 ++ c :: v2 /\ Forall (fun c => wordc c = true) v1 /\
                  wordc c = false.
Proof.
  induction v as [|c v IH]; [by left|].
  destruct (wordc c) eqn:Hc; [|right; by exists [], c, v].
  destruct IH as [IH|(v1 & d & v2 & -> & Hv1 & Hd)]; [left; by constructor|].
  right. exists (c :: v1), d, v2. repeat split; [by constructor|done].
Qed.

(** A run without a space before a space starts no fragment of Rule 1,
    unless a brace follows the space. *)
Lemma rule1_space_run v e y :
  Forall (fun c : char => c <> 32%N) v -> (e =? 123)%N = false ->
  rule1 (v ++ 32%N :: e :: y) = None.
Proof.
  intros Hv%spaceless_forallb He. unfold rule1.
  destruct (starts_with _ _) eqn:Hs; [exfalso|done].
  unfold destructured in Hs. norm_lits.
  destruct v as [|c1 [|c2 [|c3 [|c4 [|c5 [|c6 v]]]]]]; cbn [app] in Hs;
    sw_true Hs; try word_clash. by rewrite N.eqb_refl in He.
Qed.

(** Such a run starts no fragment of Rule 2 when no word character follows
    the space. *)
Lemma rule2_space_run v e y :
  Forall (fun c : char => c <> 32%N) v -> wordc e = false ->
  rule2' (v ++ 32%N :: e :: y) = None.
Proof.
  intros Hv%spaceless_forallb He. unfold rule2.
  destruct (starts_with _ _) eqn:Hs; [|done].
  assert (v = lit "const") as ->.
  { norm_lits.
    destruct v as [|c1 [|c2 [|c3 [|c4 [|c5 [|c6 v]]]]]]; cbn [app] in Hs;
      sw_true Hs; try word_clash. done. }
  change (drop 6 (lit "const" ++ 32%N :: e :: y)) with (e :: y).
  cbn [span]. by rewrite He.
Qed.

(** Rule 1 at an assignment to a name without a space. *)
Lemma rule1_assigned v y :
  Forall (fun c : char => c <> 32%N) v ->
  rule1 (lit "const " ++ v ++ lit " = req.params.id;" ++ y) = None.
Proof.
  intros Hv%spaceless_forallb. unfold rule1.
  destruct (starts_with _ _) eqn:Hs; [exfalso|done].
  unfold destructured in Hs. norm_lits. cbn [app] in Hs.
  destruct v as [|c1 [|c2 v]]; cbn [app] in Hs; sw_true Hs; word_clash.
Qed.

Lemma rule1_const v d y :
  Forall (fun c => wordc c = true) v -> (d =? 123)%N = false ->
  rule1 (lit "const " ++ v ++ d :: y) = None.
Proof.
  intros Hv%Forall_forallb Hd. unfold rule1.
  destruct (starts_with _ _) eqn:Hs; [exfalso|done].
  unfold destructured in Hs. norm_lits. cbn [app] in Hs.
  destruct v as [|c v]; cbn [app] in Hs; sw_true Hs.
  - by rewrite N.eqb_refl in Hd.
  - word_clash.
Qed.

(** Rule 2 at an assignment to a variable of word characters. *)
Lemma rule2_assign v d y :
  Forall (fun c => wordc c = true) v -> wordc d = false ->
  rule2' (lit "const " ++ v ++ d :: y) =
  if (2 <? length v) && ends_with (lit "Id") v
     && starts_with (lit " = req.params.id;") (d :: y)
  then Some (length (assigned v), v) else None.
Proof.
  intros Hv Hd. unfold rule2. rewrite starts_with_app.
  change 6 with (length (lit "const ")). rewrite drop_app_length.
  by rewrite span_app.
Qed.

(** Rule 2 at an assignment to a name without a space that it does not take. *)
Lemma rule2_assigned v y :
  Forall (fun c : char => c <> 32%N) v -> ~ named unicode_word v ->
  rule2' (lit "const " ++ v ++ lit " = req.params.id;" ++ y) = None.
Proof.
  intros Hv Hn. destruct (word_prefix v) as [Hw|(v1 & c & v2 & -> & Hv1 & Hc)].
  - change (lit " = req.params.id;") with (32%N :: lit "= req.params.id;").
    rewrite <- app_comm_cons, rule2_assign by (done || apply word_space).
    destruct ((2 <? length v) && ends_with (lit "Id") v) eqn:E; [|done].
    by destruct Hn.
  - unfold rule2. rewrite starts_with_app.
    change 6 with (length (lit "const ")). rewrite drop_app_length.
    rewrite <- app_assoc, <- app_comm_cons, span_app by done.
    apply Forall_app in Hv as [_ [Hc32 _]%Forall_cons].
    norm_lits. rewrite starts_with_cons.
    destruct (N.eqb_spec 32 c) as [<-|_]; [done|]. by rewrite andb_false_r.
Qed.

Ltac quiet_lit :=
  norm_lits; cbn [app]; repeat (apply quiet_cons; [reflexivity|]); apply quiet_nil.

Lemma quiet_rule1_assigned v z :
  Forall (fun c : char => c <> 32%N) v -> quiet rule1 (assigned v) z.
Proof.
  intros Hv. unfold assigned. apply quiet_app; [|apply quiet_app].
  - rewrite <- !app_assoc. apply quiet_cons; [by apply rule1_assigned|].
    norm_lits. cbn [app].
    repeat (apply quiet_cons; [reflexivity|]). apply quiet_nil.
  - norm_lits. cbn [app]. apply (quiet_run (fun c => c <> 32%N)); [|done].
    intros v' Hv'. by apply rule1_space_run.
  - quiet_lit.
Qed.

Lemma quiet_rule1_guarded v z :
  Forall (fun c => wordc c = true) v -> quiet rule1 (guarded v) z.
Proof.
  intros Hv. unfold guarded. repeat (apply quiet_app; [|]).
  - rewrite <- !app_assoc. norm_lits. cbn [app].
    apply quiet_cons; [by apply (rule1_const v)|].
    repeat (apply quiet_cons; [reflexivity|]). apply quiet_nil.
  - rewrite <- !app_assoc. norm_lits. cbn [app]. apply (quiet_run (fun c => wordc c = true)); [|done].
    intros v' Hv'. by apply rule1_word_run; [|apply word_space|].
  - quiet_lit.
  - norm_lits. cbn [app]. apply (quiet_run (fun c => wordc c = true)); [|done].
    intros v' Hv'. by apply rule1_word_run.
  - quiet_lit.
Qed.

Lemma quiet_rule2_guarded v z :
  Forall (fun c => wordc c = true) v -> quiet rule2' (guarded v) z.
Proof.
  intros Hv. unfold guarded. repeat (apply quiet_app; [|]).
  - rewrite <- !app_assoc. norm_lits. cbn [app].
    apply quiet_cons.
    + etrans; [by apply (rule2_assign v); [|apply word_space]|].
      by rewrite andb_false_r.
    + repeat (apply quiet_cons; [reflexivity|]). apply quiet_nil.
  - rewrite <- !app_assoc. norm_lits. cbn [app]. apply (quiet_run (fun c => wordc c = true)); [|done].
    intros v' Hv'. by apply rule2_word_run.
  - quiet_lit.
  - norm_lits. cbn [app]. apply (quiet_run (fun c => wordc c = true)); [|done].
    intros v' Hv'. by apply rule2_word_run.
  - quiet_lit.
Qed.

(** An assignment to a name that Rule 2 does not take. *)
Lemma quiet_rule2_assigned v z :
  Forall (fun c : char => c <> 32%N) v -> ~ named unicode_word v ->
  quiet rule2' (assigned v) z.
Proof.
  intros Hv Hn. unfold assigned. apply quiet_app; [|apply quiet_app].
  - rewrite <- !app_assoc. apply quiet_cons; [by apply rule2_assigned|].
    norm_lits. cbn [app].
    repeat (apply quiet_cons; [reflexivity|]). apply quiet_nil.
  - norm_lits. cbn [app]. apply (quiet_run (fun c => c <> 32%N)); [|done].
    intros v' Hv'. by apply rule2_space_run.
  - quiet_lit.
Qed.

End Rule2.

(** ** The rewriter on a text around a block *)

Section Transform.

Variable unicode_word : char -> bool.
Local Abbreviation wordc := (is_word unicode_word).
Local Abbreviation tr := (transform unicode_word).
Local Abbreviation fix_ids := (fix_id_parsing unicode_word).

Lemma re_sub_pattern1 s :
  re_sub unicode_word pattern1 (Template replacement1) s = ret (rewrite_all rule1 0 s).
Proof.
  unfold re_sub. rewrite compile_pattern1, expand_replacement1. cbn [bind ret].
  apply sub_loop_rewrite_all; [apply bounded_rule1|]. intros s'. unfold rule1.
  rewrite match_at_compiled1. destruct (starts_with destructured s'); eauto.
Qed.

Lemma re_sub_pattern2 s :
  re_sub unicode_word pattern2 (Callable replacement2) s =
  ret (rewrite_all (rule2 unicode_word) 0 s).
Proof.
  unfold re_sub. rewrite compile_pattern2. cbn [bind ret].
  apply sub_loop_rewrite_all; [apply bounded_rule2|]. intros s'.
  rewrite match_at_compiled2. destruct (rule2 unicode_word s') as [[n v]|]; eauto.
Qed.

Lemma fix_id_parsing_transform x :
  fix_id_parsing unicode_word x = ret (transform unicode_word x).
Proof.
  unfold fix_id_parsing, transform.
  rewrite re_sub_pattern1. cbn [bind ret]. by rewrite re_sub_pattern2.
Qed.

Lemma transform_guarded v a z :
  Forall (fun c => wordc c = true) v ->
  tr (a ++ guarded v ++ z) = tr a ++ guarded v ++ tr z.
Proof.
  intros Hv. unfold transform.
  rewrite (rewrite_all_split_quiet rule1 bounded_rule1).
  - rewrite (rewrite_all_split_quiet _ (bounded_rule2 unicode_word)); [done| |].
    + apply blind_rule2.
    + intros z'. by apply quiet_rule2_guarded.
  - by apply blind_rule1_head.
  - intros z'. by apply (quiet_rule1_guarded unicode_word).
Qed.

Lemma transform_destructured a z :
  tr (a ++ destructured ++ z) = tr a ++ guarded (lit "id") ++ tr z.
Proof.
  unfold transform.
  rewrite (rewrite_all_split_exact rule1 bounded_rule1 _ (lit "id")).
  - rewrite (rewrite_all_split_quiet _ (bounded_rule2 unicode_word)); [done| |].
    + apply blind_rule2.
    + intros z'. apply quiet_rule2_guarded. by repeat constructor.
  - by apply blind_rule1_head.
  - intros z'. unfold rule1. by rewrite starts_with_app.
Qed.

Lemma transform_assigned v a z :
  named unicode_word v ->
  tr (a ++ assigned v ++ z) = tr a ++ guarded v ++ tr z.
Proof.
  intros Hv. unfold transform.
  rewrite (rewrite_all_split_quiet rule1 bounded_rule1).
  - rewrite (rewrite_all_split_exact _ (bounded_rule2 unicode_word) _ v); [done| |].
    + apply blind_rule2.
    + intros z'. by apply rule2_named.
  - by apply blind_rule1_head.
  - intros z'. apply quiet_rule1_assigned.
    apply (word_spaceless unicode_word), Hv.
Qed.

Lemma transform_unnamed v a z :
  Forall (fun c : char => c <> 32%N) v -> ~ named unicode_word v ->
  tr (a ++ assigned v ++ z) = tr a ++ assigned v ++ tr z.
Proof.
  intros Hv Hn. unfold transform.
  rewrite (rewrite_all_split_quiet rule1 bounded_rule1).
  - rewrite (rewrite_all_split_quiet _ (bounded_rule2 unicode_word)); [done| |].
    + apply blind_rule2.
    + intros z'. by apply quiet_rule2_assigned.
  - by apply blind_rule1_head.
  - intros z'. by apply quiet_rule1_assigned.
Qed.

Lemma transform_absent x :
  ~ occurs rule1 x -> ~ occurs (rule2 unicode_word) x -> tr x = x.
Proof.
  intros H1 H2. unfold transform.
  rewrite (rewrite_all_absent rule1) by done.
  by apply rewrite_all_absent.
Qed.

Lemma rule1_inv b : rule1 b <> None -> b = destructured ++ drop (length destructured) b.
Proof.
  unfold rule1. destruct (starts_with destructured b) eqn:E; [|done].
  intros _. by apply starts_with_inv.
Qed.

Lemma transform_idem x : tr (tr x) = tr x.
Proof.
  remember (length x) as n eqn:Hn. revert x Hn.
  induction n as [n IH] using lt_wf_ind. intros x ->.
  destruct (occurs_dec rule1 bounded_rule1 x) as [(a & b & -> & Hb)|H1].
  { apply rule1_inv in Hb.
    set (z := drop (length destructured) b) in Hb. clearbody z. subst b.
    rewrite transform_destructured, transform_guarded by by repeat constructor.
    rewrite (IH (length a)), (IH (length z)); try done;
      rewrite !length_app; change (length destructured) with 26; lia. }
  destruct (occurs_dec _ (bounded_rule2 unicode_word) x) as [(a & b & -> & Hb)|H2].
  { destruct (rule2 unicode_word b) as [[m v]|] eqn:E; [|done].
    apply rule2_inv in E as (Hv & -> & E).
    set (z := drop (length (assigned v)) b) in E. clearbody z. subst b.
    rewrite transform_assigned, transform_guarded by (done || apply Hv).
    rewrite (IH (length a)), (IH (length z)); try done;
      unfold assigned; rewrite !length_app; simpl; lia. }
  by rewrite !(transform_absent x).
Qed.

End Transform.

(** ** The loop over the files *)

Section Loop.

Variable unicode_word : char -> bool.
Local Abbreviation fix_ids := (fix_id_parsing unicode_word).

(** One turn of the loop either leaves the disk alone or overwrites the entry
    it has just read with a text that differs. *)
Lemma process_spec q w :
  let w' := (process unicode_word q w).1 in
  (disk w' = disk w /\ written w' = written w) \/
  (exists f y, disk w !! q = Some f /\ fix_ids (text f) = ret y /\ y <> text f /\
     disk w' = <[q := File y (readable f) (writable f)]> (disk w) /\
     written w' = written w ++ [q]).
Proof.
  unfold process, io_bind, print, read, lift. cbn [fst snd disk written console].
  destruct (disk w !! q) as [f|] eqn:Hq; cbn [raise]; [|by left].
  destruct (readable f); cbn [ret raise]; [|by left].
  rewrite fix_id_parsing_transform. cbn [ret].
  destruct (decide (transform unicode_word (text f) <> text f)) as [Hne|]; [|by left].
  unfold write. cbn [disk written console]. rewrite Hq.
  destruct (writable f) eqn:Hw; cbn [fst disk written]; [|by left].
  right. exists f, (transform unicode_word (text f)).
  rewrite fix_id_parsing_transform, Hw. by cbn.
Qed.

Lemma for_each_spec files w :
  let w' := (for_each unicode_word files w).1 in
  exists l, written w' = written w ++ l /\
    (forall p, p ∈ l -> p ∈ files) /\
    dom (disk w') = dom (disk w) /\
    (forall p, p ∉ l -> disk w' !! p = disk w !! p) /\
    (forall p, p ∈ l ->
       exists f y, disk w !! p = Some f /\ fix_ids (text f) = ret y /\ y <> text f).
Proof.
  revert w; induction files as [|q rest IH]; intros w.
  - exists []. cbn. rewrite app_nil_r. repeat split; try done.
    intros p Hp. by apply elem_of_nil in Hp.
  - cbn zeta. cbn [for_each]. unfold io_bind.
    pose proof (process_spec q w) as Hq. cbn zeta in Hq.
    destruct (process unicode_word q w) as [w1 [e|[]]] eqn:Hw1; cbn [fst] in Hq |- *.
    + destruct Hq as [[Hd Hw]|(f & y & Hf & Hy & Hne & Hd & Hw)].
      * exists []. rewrite app_nil_r. repeat split; try done.
        -- intros p Hp. by apply elem_of_nil in Hp.
        -- by rewrite Hd.
        -- by rewrite Hd.
        -- intros p Hp. by apply elem_of_nil in Hp.
      * exists [q]. repeat split; try done.
        -- intros p ->%list_elem_of_singleton. apply list_elem_of_here.
        -- rewrite Hd. apply dom_insert_lookup_L. eauto.
        -- intros p Hp. rewrite Hd, lookup_insert_ne; [done|].
           intros ->. apply Hp, list_elem_of_here.
        -- intros p ->%list_elem_of_singleton. eauto.
    + destruct (IH w1) as (l & Hl & Hsub & Hdom & Hout & Hin).
      destruct Hq as [[Hd Hw]|(f & y & Hf & Hy & Hne & Hd & Hw)].
      * exists l. rewrite Hl, Hw, Hdom, Hd. repeat split; try done.
        -- intros p Hp. apply list_elem_of_further. auto.
        -- intros p Hp. rewrite Hout by done. by rewrite Hd.
        -- intros p Hp. rewrite <- Hd. auto.
      * exists (q :: l). rewrite Hl, Hw, <- app_assoc. repeat split; try done.
        -- intros p [->|Hp]%elem_of_cons; [apply list_elem_of_here|].
           apply list_elem_of_further. auto.
        -- rewrite Hdom, Hd. apply dom_insert_lookup_L. eauto.
        -- intros p [Hpq Hp]%not_elem_of_cons. rewrite Hout by done.
           by rewrite Hd, lookup_insert_ne.
        -- intros p Hp. destruct (decide (p = q)) as [->|Hpq]; [eauto|].
           apply elem_of_cons in Hp as [?|Hp]; [done|].
           destruct (Hin p Hp) as (f' & y' & Hf' & Hy'). exists f', y'.
           split; [|done]. by rewrite Hd, lookup_insert_ne in Hf'.
Qed.

Lemma main_for_each w :
  disk (main unicode_word w).1 = disk (for_each unicode_word (glob w) w).1 /\
  written (main unicode_word w).1 = written (for_each unicode_word (glob w) w).1.
Proof.
  unfold main, io_bind.
  by destruct (for_each unicode_word (glob w) w) as [w' [e|[]]].
Qed.

Lemma elem_of_glob p w :
  p ∈ glob w <-> in_routes p = true /\ is_Some (disk w !! p).
Proof.
  unfold glob. rewrite list_elem_of_filter, list_elem_of_fmap. split.
  - intros [Hp ([k f] & -> & Hkf)]. split; [done|].
    apply elem_of_map_to_list in Hkf. eauto.
  - intros [Hp [f Hf]]. split; [done|]. exists (p, f). split; [done|].
    by apply elem_of_map_to_list.
Qed.

End Loop.

(** ** The patterns and the rules find the same fragments *)

Section Language.

Variable unicode_word : char -> bool.
Local Abbreviation wordc := (is_word unicode_word).
Local Abbreviation langp := (lang unicode_word).

Lemma ends_with_inv p s : ends_with p s = true -> exists w, s = w ++ p.
Proof.
  induction s as [|c s IH]; cbn [ends_with].
  - rewrite orb_false_r. intros ->%bool_decide_eq_true. by exists [].
  - intros [->%bool_decide_eq_true|H]%orb_true_iff; [by exists []|].
    destruct (IH H) as [w ->]. by exists (c :: w).
Qed.

Lemma named_app w :
  w <> [] -> Forall (fun c => wordc c = true) w -> named unicode_word (w ++ lit "Id").
Proof.
  intros Hw HF. split.
  - apply Forall_app. split; [done|]. by repeat constructor.
  - rewrite ends_with_app, andb_true_r. apply Nat.ltb_lt.
    rewrite length_app. destruct w; [done|]. simpl. lia.
Qed.

Lemma named_inv v :
  named unicode_word v ->
  exists w, v = w ++ lit "Id" /\ w <> [] /\ Forall (fun c => wordc c = true) w.
Proof.
  intros [HF [Hlen [w ->]%ends_with_inv]%andb_true_iff].
  exists w. split; [done|]. apply Forall_app in HF as [HF _]. split; [|done].
  intros ->. apply Nat.ltb_lt in Hlen. simpl in Hlen. lia.
Qed.

Lemma lang_lits l p s :
  langp (map (fun c => One (Chr c)) l ++ p) s <-> exists t, s = l ++ t /\ langp p t.
Proof.
  revert s; induction l as [|a l IH]; intros s; cbn [map app lang].
  - split; [eauto|]. by intros (t & -> & H).
  - split.
    + intros (c & t & -> & Hc & H). apply N.eqb_eq in Hc as ->.
      apply IH in H as (t' & -> & H). eauto.
    + intros (t & -> & H). exists a, (l ++ t). cbn [accepts].
      rewrite N.eqb_refl. repeat split. apply IH. eauto.
Qed.

Lemma lang_compiled1 m : langp compiled1 m <-> m = destructured.
Proof.
  unfold compiled1, lits. rewrite <- (app_nil_r (map _ _)), lang_lits.
  cbn [lang]. split.
  - intros (t & -> & ->). by rewrite app_nil_r.
  - intros ->. exists []. by rewrite app_nil_r.
Qed.

Lemma lang_compiled2 m :
  langp compiled2 m <-> exists v, named unicode_word v /\ m = assigned v.
Proof.
  unfold compiled2, lits. rewrite lang_lits. cbn [app lang]. split.
  - intros (t & -> & w & t' & Hw & HF & -> & H).
    apply lang_lits in H as (t2 & -> & H). cbn [app lang] in H.
    rewrite <- (app_nil_r (map _ _)) in H. apply lang_lits in H as (t3 & -> & ->).
    exists (w ++ lit "Id"). split; [by apply named_app|].
    unfold assigned. by rewrite <- !app_assoc, app_nil_r.
  - intros (v & (w & -> & Hw & HF)%named_inv & ->).
    exists ((w ++ lit "Id") ++ lit " = req.params.id;"). split; [done|].
    exists w, (lit "Id" ++ lit " = req.params.id;"). repeat split; try done.
    + by rewrite <- !app_assoc.
    + apply lang_lits. exists (lit " = req.params.id;"). split; [done|].
      cbn [app lang]. rewrite <- (app_nil_r (map _ _)). apply lang_lits.
      exists []. by rewrite app_nil_r.
Qed.

Lemma contains_compiled1 x : contains unicode_word compiled1 x <-> occurs rule1 x.
Proof.
  split.
  - intros (a & m & b & -> & ->%lang_compiled1). exists a, (destructured ++ b).
    split; [done|]. unfold rule1. by rewrite starts_with_app.
  - intros (a & b & -> & Hb). apply rule1_inv in Hb. rewrite Hb.
    exists a, destructured, (drop (length destructured) b).
    split; [done|]. by apply lang_compiled1.
Qed.

Lemma contains_compiled2 x :
  contains unicode_word compiled2 x <-> occurs (rule2 unicode_word) x.
Proof.
  split.
  - intros (a & m & b & -> & (v & Hv & ->)%lang_compiled2).
    exists a, (assigned v ++ b). split; [done|]. by rewrite rule2_named.
  - intros (a & b & -> & Hb).
    destruct (rule2 unicode_word b) as [[n v]|] eqn:E; [|done].
    apply rule2_inv in E as (Hv & -> & E). rewrite E.
    exists a, (assigned v), (drop (length (assigned v)) b).
    split; [done|]. apply lang_compiled2. eauto.
Qed.

Lemma has_match_pattern1 x : has_match unicode_word pattern1 x <-> occurs rule1 x.
Proof.
  rewrite <- contains_compiled1. unfold has_match. rewrite compile_pattern1. split.
  - by intros (p & [= <-] & H).
  - eauto.
Qed.

Lemma has_match_pattern2 x :
  has_match unicode_word pattern2 x <-> occurs (rule2 unicode_word) x.
Proof.
  rewrite <- contains_compiled2. unfold has_match. rewrite compile_pattern2. split.
  - by intros (p & [= <-] & H).
  - eauto.
Qed.

Lemma occursb_false (r : rule) x : occursb r x = false -> ~ occurs r x.
Proof.
  induction x as [|c t IH]; cbn [occursb].
  - destruct (r []) eqn:E; [done|]. intros _ (a & b & Hab & Hb). symmetry in Hab.
    apply app_eq_nil in Hab as [_ ->]. by rewrite E in Hb.
  - destruct (r (c :: t)) eqn:E; [done|]. intros H (a & b & Hab & Hb).
    destruct a as [|c' a].
    + simpl in Hab. subst b. by rewrite E in Hb.
    + injection Hab as -> ->. apply (IH H). by exists a, b.
Qed.

Lemma quiet_absent (r : rule) x : r [] = None -> quiet r x [] -> ~ occurs r x.
Proof.
  intros Hnil Hq. remember [] as y eqn:Hy.
  induction Hq as [|c x y Hc Hq IH]; subst y.
  - intros (a & b & Hab & Hb). symmetry in Hab.
    apply app_eq_nil in Hab as [_ ->]. by rewrite Hnil in Hb.
  - rewrite app_nil_r in Hc. intros (a & b & Hab & Hb). destruct a as [|c' a].
    + simpl in Hab. subst b. by rewrite Hc in Hb.
    + injection Hab as -> ->. apply IH; try done. by exists a, b.
Qed.

End Language.

(** ** The properties of the specification *)

Section Claims.

Variable unicode_word : char -> bool.
Local Abbreviation tr := (transform unicode_word).

(** C1. Whatever surrounds it, an occurrence of [const { id } = req.params;]
    in the input becomes [const id = parseInt(req.params.id);] followed by the
    [isNaN(id)] guard that answers 400 with
    [{ success: false, error: 'Invalid ID' }]; the text before and after it is
    rewritten as it would be alone. *)
Theorem destructured_id_is_guarded a b :
  exists a' b',
    fix_id_parsing unicode_word a = ret a' /\
    fix_id_parsing unicode_word b = ret b' /\
    fix_id_parsing unicode_word (a ++ lit "const { id } = req.params;" ++ b) =
    ret (a' ++ lit ("const id = parseInt(req.params.id);" ++ NL ++
                    "    if (isNaN(id)) {" ++ NL ++
                    "      return res.status(400).json({ success: false, error: 'Invalid ID' });" ++ NL ++
                    "    }") ++ b').
Proof.
  exists (tr a), (tr b). rewrite !fix_id_parsing_transform.
  repeat split. f_equal. apply transform_destructured.
Qed.

(** C2. An assignment [const <word>Id = req.params.id;], with [<word>] one or
    more word characters, becomes the binding of the same name to
    [parseInt(req.params.id)] followed by the guard on [isNaN] of that name:
    the captured name stands in the assignment and in the guard. *)
Theorem named_assignment_is_guarded w a b :
  w <> [] -> Forall (fun c => is_word unicode_word c = true) w ->
  exists a' b',
    fix_id_parsing unicode_word a = ret a' /\
    fix_id_parsing unicode_word b = ret b' /\
    fix_id_parsing unicode_word
      (a ++ (lit "const " ++ (w ++ lit "Id") ++ lit " = req.params.id;") ++ b) =
    ret (a' ++ (lit "const " ++ (w ++ lit "Id") ++
                lit (" = parseInt(req.params.id);" ++ NL ++ "    if (isNaN(") ++
                (w ++ lit "Id") ++
                lit (")) {" ++ NL ++
                     "      return res.status(400).json({ success: false, error: 'Invalid ID' });" ++ NL ++
                     "    }")) ++ b').
Proof.
  intros Hw HF. exists (tr a), (tr b). rewrite !fix_id_parsing_transform.
  repeat split. f_equal. apply transform_assigned. by apply named_app.
Qed.

(** C3. [fix_id_parsing] is idempotent: applied to its own result it returns
    that result. *)
Theorem fix_id_parsing_idempotent x :
  (y <- fix_id_parsing unicode_word x ;; fix_id_parsing unicode_word y) =
  fix_id_parsing unicode_word x.
Proof.
  rewrite fix_id_parsing_transform. cbn [bind ret].
  by rewrite fix_id_parsing_transform, transform_idem.
Qed.

(** C4. A text with no occurrence of the first pattern and none of the second
    is returned as it is. *)
Theorem no_match_unchanged x :
  ~ has_match unicode_word pattern1 x -> ~ has_match unicode_word pattern2 x ->
  fix_id_parsing unicode_word x = ret x.
Proof.
  rewrite has_match_pattern1, has_match_pattern2. intros H1 H2.
  by rewrite fix_id_parsing_transform, transform_absent.
Qed.


(** C6. A file whose text the rewriter returns as it is, is not written by
    the run and keeps its entry; and a file is written only when the rewriter
    changes its text. *)
Theorem no_write_without_change w p f :
  disk w !! p = Some f ->
  exists l,
    written (main unicode_word w).1 = written w ++ l /\
    (fix_id_parsing unicode_word (text f) = ret (text f) ->
     (p ∉ l) /\ disk (main unicode_word w).1 !! p = Some f) /\
    (p ∈ l -> exists y, fix_id_parsing unicode_word (text f) = ret y /\ y <> text f).
Proof.
  intros Hp. destruct (main_for_each unicode_word w) as [-> ->].
  destruct (for_each_spec unicode_word (glob w) w) as (l & Hl & _ & _ & Hout & Hin).
  exists l. split; [done|].
  assert (Hchg : p ∈ l ->
    exists y, fix_id_parsing unicode_word (text f) = ret y /\ y <> text f).
  { intros (f' & y & Hf' & Hy)%Hin. rewrite Hp in Hf'. injection Hf' as <-. eauto. }
  split; [|done]. intros Hsame.
  assert (p ∉ l) as Hnot.
  { intros (y & Hy & Hne)%Hchg. rewrite Hsame in Hy. by injection Hy as <-. }
  split; [done|]. by rewrite Hout.
Qed.

(** C7. [fix_id_parsing] is the first rule applied to the whole text, then the
    second rule applied to the result: each [re.sub] call replaces the
    fragments of its rule from the left. *)
Theorem fix_id_parsing_rule1_then_rule2 x :
  re_sub unicode_word pattern1 (Template replacement1) x = ret (rewrite_all rule1 0 x) /\
  (forall y, re_sub unicode_word pattern2 (Callable replacement2) y =
             ret (rewrite_all (rule2 unicode_word) 0 y)) /\
  fix_id_parsing unicode_word x =
  ret (rewrite_all (rule2 unicode_word) 0 (rewrite_all rule1 0 x)).
Proof.
  split; [apply re_sub_pattern1|]. split; [apply re_sub_pattern2|].
  apply fix_id_parsing_transform.
Qed.

(** C8. [fix_id_parsing] returns a text on every input: neither the
    patterns, nor the template, nor a group lookup raises. *)
Theorem fix_id_parsing_total x :
  exists y,
    fix_id_parsing unicode_word x = ret y /\
    forall e, fix_id_parsing unicode_word x <> raise e.
Proof. exists (tr x). by rewrite fix_id_parsing_transform. Qed.


(** C10. An assignment [const v = req.params.id;] to a name [v] that holds no
    space and is not of the form [<word>Id] (word characters before a final
    [Id]), such as [id], has no occurrence of either pattern and stays as it
    is in any text. *)
Theorem plain_assignment_unchanged v a b :
  Forall (fun c : char => c <> chr " ") v -> ~ named unicode_word v ->
  ~ has_match unicode_word pattern1 (assigned v) /\
  ~ has_match unicode_word pattern2 (assigned v) /\
  exists a' b',
    fix_id_parsing unicode_word a = ret a' /\
    fix_id_parsing unicode_word b = ret b' /\
    fix_id_parsing unicode_word (a ++ assigned v ++ b) = ret (a' ++ assigned v ++ b').
Proof.
  intros Hv Hn. split; [|split].
  - rewrite has_match_pattern1. apply quiet_absent; [done|].
    by apply quiet_rule1_assigned.
  - rewrite has_match_pattern2. apply quiet_absent; [done|].
    by apply quiet_rule2_assigned.
  - exists (tr a), (tr b). rewrite !fix_id_parsing_transform.
    repeat split. f_equal. by apply transform_unnamed.
Qed.

End Claims.

(** ** The properties at concrete inputs *)

(** The assignment to [userId]. *)
Lemma named_assignment_is_guarded_witness :
  fix_id_parsing (fun _ => false) (lit "const userId = req.params.id;") =
  ret (lit ("const userId = parseInt(req.params.id);" ++ NL ++
            "    if (isNaN(userId)) {" ++ NL ++
            "      return res.status(400).json({ success: false, error: 'Invalid ID' });" ++ NL ++
            "    }")).
Proof.
  destruct (named_assignment_is_guarded (fun _ => false) (lit "user") [] [])
    as (a' & b' & Ha & Hb & H).
  - done.
  - repeat constructor.
  - vm_compute in Ha, Hb. injection Ha as <-. injection Hb as <-. exact H.
Defined.

(** A destructuring of another name is no fragment of either rule. *)
Lemma no_match_unchanged_witness :
  fix_id_parsing (fun _ => false) (lit "const { userId } = req.params;") =
  ret (lit "const { userId } = req.params;").
Proof.
  apply no_match_unchanged.
  - rewrite has_match_pattern1. by apply occursb_false.
  - rewrite has_match_pattern2. by apply occursb_false.
Defined.


(** A route file without fragments is not written. *)
Lemma no_write_without_change_witness :
  let w := World {[ "src/routes/users.ts" :=
                      File (lit "export default router;") true true ]} [] [] in
  written (main (fun _ => false) w).1 = [] /\
  disk (main (fun _ => false) w).1 !! "src/routes/users.ts" =
    Some (File (lit "export default router;") true true).
Proof.
  intros w.
  destruct (no_write_without_change (fun _ => false) w "src/routes/users.ts"
              (File (lit "export default router;") true true))
    as (l & Hl & Hsame & _).
  - reflexivity.
  - split; [by vm_compute|]. apply Hsame. by vm_compute.
Defined.

(** The assignment to plain [id]. *)
Lemma plain_assignment_unchanged_witness :
  fix_id_parsing (fun _ => false) (lit "const id = req.params.id;") =
  ret (lit "const id = req.params.id;").
Proof.
  destruct (plain_assignment_unchanged (fun _ => false) (lit "id") [] [])
    as (_ & _ & a' & b' & Ha & Hb & H).
  - by repeat constructor.
  - by intros [_ ?].
  - vm_compute in Ha, Hb. injection Ha as <-. injection Hb as <-. exact H.
Defined.

(** ** Further properties of the rewriter *)

Section Growth.

Variable r : rule.
Hypothesis r_bounded : bounded r.
Hypothesis r_grows : grows r.

Lemma rewrite_all_length x : length x <= length (rewrite_all r 0 x).
Proof.
  remember (length x) as n eqn:Hn. revert x Hn.
  induction n as [n IH] using lt_wf_ind. intros [|c t] ->; [done|].
  destruct (r (c :: t)) as [[m v]|] eqn:E.
  - rewrite (rewrite_all_hit r r_bounded _ _ _ E), length_app.
    destruct (r_bounded _ _ _ E) as [Hm1 Hm2]. apply r_grows in E.
    assert (length (drop m (c :: t)) < length (c :: t)) as Hlt
      by (rewrite length_drop; lia).
    pose proof (IH _ Hlt _ eq_refl) as Hd. rewrite length_drop in Hd. lia.
  - rewrite rewrite_all_miss by done. cbn [length].
    specialize (IH (length t) ltac:(simpl; lia) t eq_refl). lia.
Qed.

Lemma rewrite_all_longer x : occurs r x -> length x < length (rewrite_all r 0 x).
Proof.
  induction x as [|c t IH]; intros (a & b & Hab & Hb).
  - symmetry in Hab. apply app_eq_nil in Hab as [_ ->].
    by rewrite (r_nil r r_bounded) in Hb.
  - destruct (r (c :: t)) as [[m v]|] eqn:E.
    + rewrite (rewrite_all_hit r r_bounded _ _ _ E), length_app.
      destruct (r_bounded _ _ _ E) as [Hm1 Hm2]. apply r_grows in E.
      pose proof (rewrite_all_length (drop m (c :: t))) as Hd.
      rewrite length_drop in Hd. lia.
    + rewrite rewrite_all_miss by done. cbn [length].
      destruct a as [|c' a].
      * simpl in Hab. subst b. by rewrite E in Hb.
      * injection Hab as -> ->. assert (occurs r (a ++ b)) as H by by exists a, b.
        apply IH in H. lia.
Qed.

End Growth.

Lemma grows_rule1 : grows rule1.
Proof.
  intros s n v. unfold rule1. destruct (starts_with destructured s); [|done].
  intros [= <- <-]. vm_compute. lia.
Qed.

Section More.

Variable unicode_word : char -> bool.
Local Abbreviation wordc := (is_word unicode_word).
Local Abbreviation tr := (transform unicode_word).
Local Abbreviation rw1 := (rewrite_all rule1 0).
Local Abbreviation rw2 := (rewrite_all (rule2 unicode_word) 0).

Lemma grows_rule2 : grows (rule2 unicode_word).
Proof.
  intros s n v (_ & -> & _)%rule2_inv. unfold assigned, guarded.
  rewrite !length_app. simpl. lia.
Qed.

Lemma transform_length x : length x <= length (tr x).
Proof.
  unfold transform.
  pose proof (rewrite_all_length rule1 bounded_rule1 grows_rule1 x).
  pose proof (rewrite_all_length _ (bounded_rule2 unicode_word) grows_rule2 (rw1 x)).
  lia.
Qed.

(** The rewriter returns a text as it is exactly when no rule has a fragment
    in it. *)
Lemma transform_fixed x :
  tr x = x <-> ~ occurs rule1 x /\ ~ occurs (rule2 unicode_word) x.
Proof.
  split; [|intros [H1 H2]; by apply transform_absent].
  intros Hx. assert (~ occurs rule1 x) as H1.
  { intros H%(rewrite_all_longer rule1 bounded_rule1 grows_rule1).
    pose proof (rewrite_all_length _ (bounded_rule2 unicode_word) grows_rule2 (rw1 x)).
    apply (f_equal length) in Hx. unfold transform in Hx. lia. }
  split; [done|].
  intros H%(rewrite_all_longer _ (bounded_rule2 unicode_word) grows_rule2).
  apply (f_equal length) in Hx. unfold transform in Hx.
  rewrite (rewrite_all_absent rule1 x H1) in Hx. lia.
Qed.

Lemma quiet_rule2_destructured z : quiet (rule2 unicode_word) destructured z.
Proof.
  unfold destructured. norm_lits. cbn [app].
  repeat (apply quiet_cons; [reflexivity|]). apply quiet_nil.
Qed.

Lemma blind_rule2_destructured : blind (rule2 unicode_word) destructured.
Proof. apply (blind_rule2 unicode_word (lit "{ id } = req.params;")). Qed.

(** The rules in the other order give the same text. *)
Lemma rules_commute x : rw1 (rw2 x) = tr x.
Proof.
  remember (length x) as n eqn:Hn. revert x Hn.
  induction n as [n IH] using lt_wf_ind. intros x ->.
  destruct (occurs_dec rule1 bounded_rule1 x) as [(a & b & -> & Hb)|H1].
  { apply rule1_inv in Hb.
    set (z := drop (length destructured) b) in Hb. clearbody z. subst b.
    rewrite transform_destructured.
    rewrite (rewrite_all_split_quiet _ (bounded_rule2 unicode_word) destructured)
      by (apply blind_rule2_destructured || apply quiet_rule2_destructured).
    rewrite (rewrite_all_split_exact rule1 bounded_rule1 destructured (lit "id")).
    - rewrite (IH (length a)), (IH (length z)); try done;
        rewrite !length_app; change (length destructured) with 26; lia.
    - by apply blind_rule1_head.
    - intros z'. unfold rule1. by rewrite starts_with_app. }
  destruct (occurs_dec _ (bounded_rule2 unicode_word) x) as [(a & b & -> & Hb)|H2].
  { destruct (rule2 unicode_word b) as [[m v]|] eqn:E; [|done].
    apply rule2_inv in E as (Hv & -> & E).
    set (z := drop (length (assigned v)) b) in E. clearbody z. subst b.
    rewrite transform_assigned by done.
    rewrite (rewrite_all_split_exact _ (bounded_rule2 unicode_word) (assigned v) v)
      by (apply blind_rule2 || (intros; by apply rule2_named)).
    rewrite (rewrite_all_split_quiet rule1 bounded_rule1 (guarded v)).
    - rewrite (IH (length a)), (IH (length z)); try done;
        unfold assigned; rewrite !length_app; simpl; lia.
    - by apply blind_rule1_head.
    - intros z'. apply (quiet_rule1_guarded unicode_word), Hv. }
  rewrite (rewrite_all_absent _ x H2), (rewrite_all_absent rule1 x H1).
  by rewrite transform_absent.
Qed.

(** A character that is no word character and none of the other characters
    of the patterns is in no text made of such characters. *)
Lemma sep_skip p c :
  wordc c = false ->
  forallb (fun b => negb (b =? c)%N) (lit " {}=.;") = true ->
  forallb (fun b => wordc b || existsb (N.eqb b) (lit " {}=.;")) p = true ->
  forallb (fun b => negb (b =? c)%N) p = true.
Proof.
  intros Hc Hsep. induction p as [|b p IH]; [done|]. cbn [forallb].
  intros [Hb Hp]%andb_true_iff. rewrite IH, andb_true_r by done.
  destruct (N.eqb_spec b c) as [->|]; [exfalso|done].
  rewrite Hc in Hb. cbn [orb] in Hb.
  apply existsb_exists in Hb as (b' & Hin & ->%N.eqb_eq).
  rewrite forallb_forall in Hsep. specialize (Hsep _ Hin).
  by rewrite N.eqb_refl in Hsep.
Qed.

Lemma blind_rule1_sep c :
  wordc c = false ->
  forallb (fun b => negb (b =? c)%N) (lit " {}=.;") = true ->
  blind rule1 [c].
Proof.
  intros Hc Hsep a z Ha. unfold rule1. cbn [app].
  rewrite starts_with_skip; [done|done|]. by apply sep_skip.
Qed.

Lemma blind_rule2_sep c :
  wordc c = false ->
  forallb (fun b => negb (b =? c)%N) (lit " {}=.;") = true ->
  blind (rule2 unicode_word) [c].
Proof.
  intros Hc Hsep a z Ha. unfold rule2. cbn [app].
  rewrite starts_with_skip; [|done|by apply sep_skip].
  destruct (starts_with (lit "const ") a) eqn:Hs; [|done].
  apply starts_with_length in Hs as Hlen. change (length (lit "const ")) with 6 in Hlen.
  rewrite drop_app_le by done.
  destruct (span wordc (drop 6 a)) as [v r] eqn:Hsp.
  apply span_spec in Hsp as (-> & Hv & Hr).
  destruct r as [|d r].
  - rewrite app_nil_r, span_app by done. rewrite !andb_false_r.
    replace (starts_with (lit " = req.params.id;") (c :: z)) with false;
      [by rewrite andb_false_r|].
    norm_lits. rewrite starts_with_cons.
    destruct (N.eqb_spec 32 c) as [<-|]; [|done].
    by vm_compute in Hsep.
  - rewrite <- app_assoc, <- app_comm_cons, span_app by done.
    rewrite app_comm_cons, starts_with_skip; [done|done|by apply sep_skip].
Qed.

Lemma quiet_sep (r : rule) c z : r (c :: z) = None -> quiet r [c] z.
Proof. intros H. apply quiet_cons; [done|]. apply quiet_nil. Qed.

Lemma rule1_sep c z : wordc c = false -> rule1 (c :: z) = None.
Proof.
  intros Hc. unfold rule1, destructured. norm_lits. rewrite starts_with_cons.
  destruct (N.eqb_spec 99 c) as [<-|]; [|done]. by vm_compute in Hc.
Qed.

Lemma rule2_sep c z : wordc c = false -> rule2 unicode_word (c :: z) = None.
Proof.
  intros Hc. unfold rule2. norm_lits. rewrite starts_with_cons.
  destruct (N.eqb_spec 99 c) as [<-|]; [|done]. by vm_compute in Hc.
Qed.

(** The rewriter works on the two sides of such a character apart. *)
Lemma transform_sep c a z :
  wordc c = false ->
  forallb (fun b => negb (b =? c)%N) (lit " {}=.;") = true ->
  tr (a ++ c :: z) = tr a ++ c :: tr z.
Proof.
  intros Hc Hsep. unfold transform.
  change (a ++ c :: z) with (a ++ [c] ++ z).
  rewrite (rewrite_all_split_quiet rule1 bounded_rule1 [c]).
  - rewrite (rewrite_all_split_quiet _ (bounded_rule2 unicode_word) [c]); [done| |].
    + by apply blind_rule2_sep.
    + intros z'. by apply quiet_sep, rule2_sep.
  - by apply blind_rule1_sep.
  - intros z'. by apply quiet_sep, rule1_sep.
Qed.

End More.

(** ** Further properties of the loop *)

Lemma filter_ext_elem {A} (P Q : A -> Prop) `{!forall x, Decision (P x)}
    `{!forall x, Decision (Q x)} (l : list A) :
  (forall x, x ∈ l -> P x <-> Q x) -> filter P l = filter Q l.
Proof.
  induction l as [|x l IH]; intros Hext; [done|].
  rewrite !filter_cons. rewrite IH by (intros y Hy; apply Hext; by right).
  destruct (decide (P x)) as [HP|HP], (decide (Q x)) as [HQ|HQ]; try done.
  - destruct HQ. apply Hext; [by left|done].
  - destruct HP. apply Hext; [by left|done].
Qed.

Lemma fmap_ext_elem {A B} (f g : A -> B) (l : list A) :
  (forall x, x ∈ l -> f x = g x) -> f <$> l = g <$> l.
Proof.
  induction l as [|x l IH]; intros Hext; [done|]. cbn.
  rewrite (Hext x) by by left. f_equal. apply IH. intros y Hy. apply Hext. by right.
Qed.

(** The first element of a list that fails a test. *)
Lemma first_failure {A} (f : A -> bool) (l : list A) :
  (forall x, x ∈ l -> f x = true) \/
  exists l1 x l2, l = l1 ++ x :: l2 /\ f x = false /\ forall y, y ∈ l1 -> f y = true.
Proof.
  induction l as [|x l IH]; [left; by intros x ?%elem_of_nil|].
  destruct (f x) eqn:Hx; [|right; exists [], x, l; repeat split; [done|by intros y ?%elem_of_nil]].
  destruct IH as [IH|(l1 & y & l2 & -> & Hy & Hl1)].
  - left. by intros y [->|Hy]%elem_of_cons; [|apply IH].
  - right. exists (x :: l1), y, l2. repeat split; [done|].
    by intros z [->|Hz]%elem_of_cons; [|apply Hl1].
Qed.

Section Runs.

Variable unicode_word : char -> bool.
Local Abbreviation tr := (transform unicode_word).
Local Abbreviation fixed := (rewritten unicode_word).
Local Abbreviation chg := (changes unicode_word).
Local Abbreviation pass := (passable unicode_word).
Local Abbreviation lines := (report unicode_word).
Local Abbreviation loop := (for_each unicode_word).

Lemma rewritten_eq f : fixed f = File (tr (text f)) (readable f) (writable f).
Proof. unfold rewritten. by rewrite fix_id_parsing_transform. Qed.

Lemma rewritten_idem f : fixed (fixed f) = fixed f.
Proof.
  rewrite !rewritten_eq. cbn [text readable writable]. by rewrite transform_idem.
Qed.

Lemma changes_eq w p :
  chg w p = match disk w !! p with
            | Some f => bool_decide (tr (text f) <> text f)
            | None => false
            end.
Proof.
  unfold changes. destruct (disk w !! p); [|done].
  by rewrite fix_id_parsing_transform.
Qed.

Lemma changes_same w w' p : disk w' !! p = disk w !! p -> chg w' p = chg w p.
Proof. unfold changes. by intros ->. Qed.

Lemma passable_same w w' p : disk w' !! p = disk w !! p -> pass w' p = pass w p.
Proof. intros H. unfold passable. by rewrite (changes_same _ _ _ H), H. Qed.

(** An entry that the loop has passed over can be passed over again, and its
    text does not change any more. *)
Lemma passable_fixed w w' p :
  disk w' !! p = fixed <$> disk w !! p ->
  chg w' p = false /\ (pass w p = true -> pass w' p = true).
Proof.
  intros H. unfold passable. rewrite !changes_eq, H.
  destruct (disk w !! p) as [f|]; cbn; [|done].
  rewrite rewritten_eq. cbn [text readable writable].
  rewrite transform_idem, (bool_decide_eq_false_2 (_ <> _)) by (by intros []).
  split; [done|]. by intros [-> _]%andb_true_iff.
Qed.

Lemma process_pass q w :
  pass w q = true ->
  process unicode_word q w =
  (World (alter fixed q (disk w))
         (written w ++ (if chg w q then [q] else []))
         (console w ++ lines w q), ret tt).
Proof.
  unfold passable, report. rewrite changes_eq.
  unfold process, io_bind, print, read, lift. cbn [disk written console].
  destruct (disk w !! q) as [f|] eqn:Hq; [|done].
  destruct (readable f) eqn:Hr; [|done]. cbn [andb ret].
  rewrite fix_id_parsing_transform. cbn [ret].
  destruct (decide (tr (text f) <> text f)) as [Hne|He].
  - rewrite (bool_decide_eq_true_2 _ Hne). cbn [negb orb]. intros Hw.
    unfold write. cbn [disk written console]. rewrite Hq, Hw. cbn.
    rewrite <- app_assoc. do 2 f_equal. f_equal.
    apply map_eq. intros p. rewrite lookup_insert, lookup_alter.
    destruct (decide (q = p)) as [<-|]; [|done].
    rewrite Hq. change (fixed <$> Some f) with (Some (fixed f)).
    by rewrite rewritten_eq, Hw.
  - rewrite (bool_decide_eq_false_2 _ He). intros _. cbn.
    rewrite <- app_assoc, app_nil_r. do 2 f_equal. f_equal.
    symmetry. apply alter_id. intros f' Hf'. rewrite Hq in Hf'. injection Hf' as <-.
    rewrite rewritten_eq. apply dec_stable in He. rewrite He. by destruct f.
Qed.

Lemma process_fail q w :
  pass w q = false ->
  process unicode_word q w =
  (World (disk w) (written w) (console w ++ [Processing q]), raise OSError).
Proof.
  unfold passable. rewrite changes_eq.
  unfold process, io_bind, print, read, lift. cbn [disk written console].
  destruct (disk w !! q) as [f|] eqn:Hq; [|done].
  destruct (readable f) eqn:Hr; [|done]. cbn [andb ret].
  rewrite fix_id_parsing_transform. cbn [ret].
  destruct (decide (tr (text f) <> text f)) as [Hne|He].
  - rewrite (bool_decide_eq_true_2 _ Hne). cbn [negb orb]. intros Hw.
    unfold write. cbn [disk written console]. by rewrite Hq, Hw.
  - by rewrite (bool_decide_eq_false_2 _ He).
Qed.

(** The loop over files that can all be passed over. *)
Lemma for_each_pass files : forall w,
  (forall p, p ∈ files -> pass w p = true) ->
  exists w',
    loop files w = (w', ret tt) /\
    (forall p, disk w' !! p =
               if decide (p ∈ files) then fixed <$> disk w !! p else disk w !! p) /\
    (NoDup files ->
     written w' = written w ++ filter (fun p => chg w p = true) files /\
     console w' = console w ++ concat (lines w <$> files)).
Proof.
  induction files as [|q rest IH]; intros w Hall.
  - exists w. split; [by destruct w|]. split.
    + intros p. by rewrite decide_False by by intros ?%elem_of_nil.
    + intros _. by rewrite filter_nil, !app_nil_r.
  - assert (pass w q = true) as Hq by (apply Hall; by left).
    cbn [for_each]. unfold io_bind. rewrite (process_pass q w Hq).
    set (w1 := World _ _ _).
    assert (Hw1 : forall p, disk w1 !! p =
                  if decide (p = q) then fixed <$> disk w !! p else disk w !! p).
    { intros p. cbn [w1 disk]. rewrite lookup_alter.
      destruct (decide (q = p)) as [<-|Hne]; [by rewrite decide_True|].
      by rewrite decide_False by done. }
    destruct (IH w1) as (w' & Hrun & Hdisk & Hlog).
    { intros p Hp. specialize (Hw1 p). destruct (decide (p = q)) as [->|Hne].
      - by apply (passable_fixed w w1 q).
      - rewrite (passable_same _ _ _ Hw1). apply Hall. by right. }
    exists w'. split; [done|]. split.
    + intros p. rewrite Hdisk, Hw1.
      destruct (decide (p = q)) as [->|Hne].
      * rewrite (decide_True (P := q ∈ q :: rest)) by by left.
        destruct (decide (q ∈ rest)); [|done].
        rewrite <- option_fmap_compose. apply option_fmap_ext. intros f. cbn.
        apply rewritten_idem.
      * destruct (decide (p ∈ rest)) as [Hin|Hout].
        -- by rewrite decide_True by by right.
        -- rewrite decide_False; [done|]. by intros [->|?]%elem_of_cons.
    + intros [Hq' Hnd]%NoDup_cons. destruct (Hlog Hnd) as [-> ->].
      assert (Hrest : forall p, p ∈ rest -> disk w1 !! p = disk w !! p).
      { intros p Hp. rewrite Hw1, decide_False; [done|]. by intros ->. }
      rewrite (filter_ext_elem (fun p => chg w1 p = true) (fun p => chg w p = true))
        by (intros p Hp; by rewrite (changes_same _ _ _ (Hrest p Hp))).
      rewrite (fmap_ext_elem (lines w1) (lines w))
        by (intros p Hp; unfold report; by rewrite (changes_same _ _ _ (Hrest p Hp))).
      cbn [w1 written console fmap list_fmap concat]. rewrite filter_cons.
      rewrite <- !app_assoc. split; [|done]. f_equal.
      destruct (chg w q) eqn:E.
      * by rewrite decide_True.
      * by rewrite decide_False.
Qed.

Lemma for_each_app l1 l2 w :
  loop (l1 ++ l2) w =
  match loop l1 w with
  | (w', inl e) => (w', inl e)
  | (w', inr _) => loop l2 w'
  end.
Proof.
  revert w; induction l1 as [|q l1 IH]; intros w; [done|].
  cbn [app for_each]. unfold io_bind.
  destruct (process unicode_word q w) as [w1 [e|[]]]; [done|]. apply IH.
Qed.

(** The loop stops at the first file that cannot be passed over. *)
Lemma for_each_stop l1 q l2 w :
  (forall p, p ∈ l1 -> pass w p = true) -> pass w q = false -> q ∉ l1 ->
  exists w',
    loop l1 w = (w', ret tt) /\
    loop (l1 ++ q :: l2) w =
    (World (disk w') (written w') (console w' ++ [Processing q]), raise OSError).
Proof.
  intros Hl1 Hq Hnot. destruct (for_each_pass l1 w Hl1) as (w' & Hrun & Hdisk & _).
  exists w'. split; [done|]. rewrite for_each_app, Hrun.
  cbn [for_each]. unfold io_bind. rewrite process_fail; [done|].
  rewrite <- Hq. apply passable_same. by rewrite Hdisk, decide_False.
Qed.

Lemma for_each_finishes files w :
  (loop files w).2 = ret tt <-> forall p, p ∈ files -> pass w p = true.
Proof.
  split.
  - intros Hrun. destruct (first_failure (pass w) files)
      as [H|(l1 & q & l2 & -> & Hq & Hl1)]; [done|].
    exfalso. destruct (first_failure (fun p => negb (bool_decide (p = q))) l1)
      as [Hnot|(l0 & q' & l3 & -> & Hq' & Hl0)].
    + destruct (for_each_stop l1 q l2 w Hl1 Hq) as (w' & _ & Hstop).
      { intros Hin. specialize (Hnot _ Hin). by rewrite bool_decide_eq_true_2 in Hnot. }
      by rewrite Hstop in Hrun.
    + apply negb_false_iff, bool_decide_eq_true in Hq'. subst q'.
      rewrite Hl1 in Hq; [done|]. apply elem_of_app. right. by left.
  - intros H. destruct (for_each_pass files w H) as (w' & -> & _). done.
Qed.


Lemma NoDup_glob w : NoDup (glob w).
Proof. unfold glob. apply NoDup_filter, NoDup_fst_map_to_list. Qed.

Lemma main_eq w :
  main unicode_word w =
  match loop (glob w) w with
  | (w', inl e) => (w', inl e)
  | (w', inr _) => (World (disk w') (written w') (console w' ++ [Done]), ret tt)
  end.
Proof. done. Qed.

Lemma main_finishes w :
  (main unicode_word w).2 = ret tt <-> forall p, p ∈ glob w -> pass w p = true.
Proof.
  rewrite <- for_each_finishes, main_eq.
  by destruct (loop (glob w) w) as [w' [e|[]]].
Qed.

(** A run that finishes. *)
Lemma main_pass w :
  (main unicode_word w).2 = ret tt ->
  (forall p, disk (main unicode_word w).1 !! p =
             if decide (p ∈ glob w) then fixed <$> disk w !! p else disk w !! p) /\
  written (main unicode_word w).1 =
    written w ++ filter (fun p => chg w p = true) (glob w) /\
  console (main unicode_word w).1 =
    console w ++ concat (lines w <$> glob w) ++ [Done].
Proof.
  intros Hrun. pose proof (proj1 (main_finishes w) Hrun) as H.
  destruct (for_each_pass (glob w) w H) as (w' & Hrun' & Hdisk & Hlog).
  destruct (Hlog (NoDup_glob w)) as [Hw Hc].
  rewrite main_eq, Hrun'. cbn [fst disk written console].
  by rewrite Hc, <- app_assoc.
Qed.

End Runs.

Lemma filter_none {A} (P : A -> Prop) `{!forall x, Decision (P x)} (l : list A) :
  (forall x, x ∈ l -> ~ P x) -> filter P l = [].
Proof.
  induction l as [|x l IH]; intros Hnone; [done|].
  rewrite filter_cons_False by (apply Hnone; by left).
  apply IH. intros y Hy. apply Hnone. by right.
Qed.

Section Extras.

Variable unicode_word : char -> bool.
Local Abbreviation tr := (transform unicode_word).

Lemma transform_longer x :
  occurs rule1 x \/ occurs (rule2 unicode_word) x -> length x < length (tr x).
Proof.
  unfold transform. intros [H|H].
  - apply (rewrite_all_longer rule1 bounded_rule1 grows_rule1) in H.
    pose proof (rewrite_all_length _ (bounded_rule2 unicode_word)
                  (grows_rule2 unicode_word) (rewrite_all rule1 0 x)). lia.
  - destruct (occurs_dec rule1 bounded_rule1 x) as [H1|H1].
    + apply (rewrite_all_longer rule1 bounded_rule1 grows_rule1) in H1.
      pose proof (rewrite_all_length _ (bounded_rule2 unicode_word)
                    (grows_rule2 unicode_word) (rewrite_all rule1 0 x)). lia.
    + rewrite (rewrite_all_absent rule1 x H1).
      by apply (rewrite_all_longer _ (bounded_rule2 unicode_word)
                  (grows_rule2 unicode_word)).
Qed.


(** X1. The two [re.sub] calls in the other order give the text that
    [fix_id_parsing] gives. *)
Theorem rules_in_either_order x :
  (y <- re_sub unicode_word pattern2 (Callable replacement2) x ;;
   re_sub unicode_word pattern1 (Template replacement1) y) =
  fix_id_parsing unicode_word x.
Proof.
  rewrite re_sub_pattern2. cbn [bind ret].
  by rewrite re_sub_pattern1, fix_id_parsing_transform, rules_commute.
Qed.

(** X2. [fix_id_parsing] returns a text as it is exactly when neither pattern
    has an occurrence in it: it never replaces a fragment by itself. *)
Theorem unchanged_iff_no_match x :
  fix_id_parsing unicode_word x = ret x <->
  ~ has_match unicode_word pattern1 x /\ ~ has_match unicode_word pattern2 x.
Proof.
  rewrite has_match_pattern1, has_match_pattern2, fix_id_parsing_transform.
  rewrite <- transform_fixed. split; [by intros [=]|by intros ->].
Qed.

(** X3. The text that [fix_id_parsing] returns has no occurrence of either
    pattern left. *)
Theorem result_has_no_match x :
  exists y,
    fix_id_parsing unicode_word x = ret y /\
    ~ has_match unicode_word pattern1 y /\ ~ has_match unicode_word pattern2 y.
Proof.
  exists (tr x). split; [apply fix_id_parsing_transform|].
  rewrite has_match_pattern1, has_match_pattern2.
  apply transform_fixed, transform_idem.
Qed.

(** X4. [fix_id_parsing] never makes a text shorter, and a result of the
    same length is the text itself. *)
Theorem fix_id_parsing_never_shrinks x :
  exists y,
    fix_id_parsing unicode_word x = ret y /\
    length x <= length y /\ (length y = length x -> y = x).
Proof.
  exists (tr x). split; [apply fix_id_parsing_transform|].
  split; [apply transform_length|]. intros Hlen.
  apply transform_fixed. split; intros H.
  - pose proof (transform_longer x (or_introl H)). lia.
  - pose proof (transform_longer x (or_intror H)). lia.
Qed.

(** X5. A character that is no word character and none of [ {}=.;] (a line
    break, a tab, a comma, a parenthesis) splits the work: the text before it
    and the text after it are rewritten apart. *)
Theorem separator_splits c a z :
  is_word unicode_word c = false ->
  forallb (fun b => negb (b =? c)%N) (lit " {}=.;") = true ->
  exists a' z',
    fix_id_parsing unicode_word a = ret a' /\
    fix_id_parsing unicode_word z = ret z' /\
    fix_id_parsing unicode_word (a ++ c :: z) = ret (a' ++ c :: z').
Proof.
  intros Hc Hsep. exists (tr a), (tr z). rewrite !fix_id_parsing_transform.
  repeat split. f_equal. by apply transform_sep.
Qed.

(** X6. After a run that finishes, every discovered file holds the text that
    [fix_id_parsing] returns on its text before the run, and can be read and
    written as before. *)
Theorem finished_run_rewrites_each_file w p f :
  (main unicode_word w).2 = ret tt ->
  p ∈ glob w -> disk w !! p = Some f ->
  exists content,
    fix_id_parsing unicode_word (text f) = ret content /\
    disk (main unicode_word w).1 !! p =
    Some (File content (readable f) (writable f)).
Proof.
  intros Hrun Hp Hf. destruct (main_pass unicode_word w Hrun) as (Hdisk & _).
  exists (tr (text f)). split; [apply fix_id_parsing_transform|].
  rewrite Hdisk, decide_True, Hf by done. cbn. by rewrite rewritten_eq.
Qed.


(** X8. After a run that finishes, a second run finishes too, writes no file
    and leaves the disk as the first run left it. *)
Theorem second_run_changes_nothing w :
  (main unicode_word w).2 = ret tt ->
  (main unicode_word (main unicode_word w).1).2 = ret tt /\
  disk (main unicode_word (main unicode_word w).1).1 = disk (main unicode_word w).1 /\
  written (main unicode_word (main unicode_word w).1).1 = written (main unicode_word w).1.
Proof.
  intros Hrun. destruct (main_pass unicode_word w Hrun) as (Hdisk & _).
  pose proof (proj1 (main_finishes unicode_word w) Hrun) as Hpass.
  set (w1 := (main unicode_word w).1) in *.
  assert (Hfix : forall p, p ∈ glob w1 ->
    disk w1 !! p = rewritten unicode_word <$> disk w !! p /\ p ∈ glob w).
  { intros p [Hp Hsome]%elem_of_glob. rewrite Hdisk in Hsome |- *.
    destruct (decide (p ∈ glob w)) as [Hin|Hout]; [done|].
    destruct Hout. by apply elem_of_glob. }
  assert (Hrun1 : (main unicode_word w1).2 = ret tt).
  { apply main_finishes. intros p Hp. destruct (Hfix p Hp) as [Hd Hin].
    by apply (passable_fixed unicode_word w w1 p Hd), Hpass. }
  split; [done|]. destruct (main_pass unicode_word w1 Hrun1) as (Hdisk1 & -> & _).
  split.
  - apply map_eq. intros p. rewrite Hdisk1.
    destruct (decide (p ∈ glob w1)) as [Hp|]; [|done].
    destruct (Hfix p Hp) as [-> _]. rewrite <- option_fmap_compose.
    apply option_fmap_ext. intros f. apply rewritten_idem.
  - rewrite filter_none; [by rewrite app_nil_r|]. intros p Hp.
    destruct (Hfix p Hp) as [Hd _].
    destruct (passable_fixed unicode_word w w1 p Hd) as [-> _]. done.
Qed.




End Extras.

(** ** The further properties at concrete inputs *)

(** A line break inside an assignment keeps Rule 2 from taking it. *)
Lemma separator_splits_witness :
  fix_id_parsing (fun _ => false) (lit ("const userId" ++ NL ++ " = req.params.id;")) =
  ret (lit ("const userId" ++ NL ++ " = req.params.id;")).
Proof.
  destruct (separator_splits (fun _ => false) 10%N
              (lit "const userId") (lit " = req.params.id;"))
    as (a' & z' & Ha & Hz & H).
  - reflexivity.
  - reflexivity.
  - vm_compute in Ha, Hz. injection Ha as <-. injection Hz as <-. exact H.
Defined.

(** Two route files, one with a fragment. *)
Lemma finished_run_rewrites_each_file_witness :
  let w := World (list_to_map
    [("src/routes/users.ts", File (lit "const { id } = req.params;") true true);
     ("src/routes/index.ts", File (lit "export default router;") true true)])
    [] [] in
  disk (main (fun _ => false) w).1 !! "src/routes/users.ts" =
  Some (File (lit replacement1) true true).
Proof.
  intros w.
  destruct (finished_run_rewrites_each_file (fun _ => false) w "src/routes/users.ts"
              (File (lit "const { id } = req.params;") true true))
    as (content & Hc & Hd).
  - by vm_compute.
  - apply elem_of_glob. split; [by vm_compute|]. eexists. by vm_compute.
  - by vm_compute.
  - vm_compute in Hc. injection Hc as <-. exact Hd.
Defined.

Lemma second_run_changes_nothing_witness :
  let w := World (list_to_map
    [("src/routes/users.ts", File (lit "const { id } = req.params;") true true);
     ("src/routes/index.ts", File (lit "export default router;") true true)])
    [] [] in
  (main (fun _ => false) (main (fun _ => false) w).1).2 = ret tt /\
  disk (main (fun _ => false) (main (fun _ => false) w).1).1 =
    disk (main (fun _ => false) w).1 /\
  written (main (fun _ => false) (main (fun _ => false) w).1).1 =
    written (main (fun _ => false) w).1.
Proof.
  intros w. apply (second_run_changes_nothing (fun _ => false) w). by vm_compute.
Defined.



